(** * mp-wx-sdk: the promise adapter over the WeChat capability object

    A shallow embedding of [src/index.js] (class [WeChat]): the constructor,
    [promisify], [setOption], the pass-through methods and the four HTTP-verb
    shortcuts, over a small store model of the JavaScript values the code
    touches (objects held by reference, promises, resolving functions and
    host functions). *)

From Stdlib Require Import ZArith String List.
From stdpp Require Import gmap strings list fin_maps pretty.

Open Scope string_scope.
Open Scope nat_scope.
Open Scope list_scope.

(** ** Values and objects *)

(** Objects live in a store and are held by reference, so that aliasing and
    mutation ([Object.assign] writes into its target) are visible. *)
Abbreviation loc := nat.

(** JavaScript values.  Numbers are the integers plus [NaN]; this is enough
    for the truthiness test the code performs on them. *)
Inductive value :=
| VUndef
| VNull
| VBool (b : bool)
| VNum (z : Z)
| VNaN
| VStr (s : string)
| VRef (l : loc).

#[global] Instance value_eq_dec : EqDecision value.
Proof. solve_decision. Defined.

(** A promise is pending until the first of its two resolving functions is
    called.  [Resolved v] records that [resolve] came first and was given
    [v]; [Rejected v] that [reject] came first and was given [v].  Later
    calls change nothing.  (What the promise library goes on to do with a
    resolution value that is itself a promise, namely follow it, is the
    library's business and is not modelled: the state records the value
    the adapter's callback was given.) *)
Inductive pstate :=
| Pending
| Resolved (v : value)
| Rejected (v : value).

(** What a store location can hold.  [OPlain] is an ordinary object, given by
    its own enumerable properties (no prototype chain is modelled);
    [OFun h] is a function implemented outside the adapter (a host operation
    of the capability object, or a callback of the caller), named by [h];
    [OResolve p] and [OReject p] are the two resolving functions of the
    promise at [p]. *)
Inductive object :=
| OPlain (props : gmap string value)
| OError (name message : string)
| OFun (h : nat)
| OResolve (p : loc)
| OReject (p : loc)
| OPromise (s : pstate).

(** ** Host operations

    A host function is foreign code.  All the adapter can observe of one of
    its runs is which callbacks it invokes and how the call completes.  A
    callee is addressed by a path into the arguments the host received
    ([args[i].k1.k2...]), so a host can only invoke what it was handed. *)
Record path := Path { parg : nat; pfields : list string }.

Record hcall := HCall { callee : path; payload : list value }.

Inductive completion (A : Type) :=
| Normal (a : A)
| Throw (e : value).
Arguments Normal {A} a.
Arguments Throw {A} e.

(** [during]: the callbacks invoked before the host function returns, in
    order; [outcome]: how the call completes; [later]: the callbacks invoked
    after it has returned (asynchronous completion), in order. *)
Record behaviour := Behaviour {
  during : list hcall;
  outcome : completion value;
  later : list hcall
}.

(** ** Store *)

(** [log] records every call the adapter makes to a host function (its name
    and the argument list it received); [queue] holds the callback
    invocations that hosts have scheduled for later. *)
Record state := State {
  heap : list object;
  log : list (nat * list value);
  queue : list (value * list value)
}.

Definition with_heap (f : list object → list object) (st : state) : state :=
  State (f (heap st)) (log st) (queue st).

(** ** The state-and-exception monad of the embedding *)

Definition M (A : Type) : Type := state → completion A * state.

Definition ret {A} (a : A) : M A := λ st, (Normal a, st).

Definition bind {A B} (c : M A) (k : A → M B) : M B :=
  λ st, match c st with
        | (Normal a, st') => k a st'
        | (Throw e, st') => (Throw e, st')
        end.

Definition throw {A} (e : value) : M A := λ st, (Throw e, st).

Definition try_catch {A} (c : M A) (handler : value → M A) : M A :=
  λ st, match c st with
        | (Normal a, st') => (Normal a, st')
        | (Throw e, st') => handler e st'
        end.

Notation "'let*' x ':=' c 'in' k" := (bind c (λ x, k))
  (at level 10, x name, c at level 100, k at level 200).

Definition get_heap : M (list object) := λ st, (Normal (heap st), st).

Definition modify_heap (f : list object → list object) : M unit :=
  λ st, (Normal tt, with_heap f st).

(** Allocation appends to the store; the new object's location is the old
    length. *)
Definition alloc (o : object) : M loc :=
  λ st, (Normal (length (heap st)), with_heap (λ hp, hp ++ [o]) st).

(** [throw new Name(message)] *)
Definition throw_new {A} (name message : string) : M A :=
  let* e := alloc (OError name message) in throw (VRef e).

(** ** JavaScript primitives used by the source *)

(** [!v] is [negb (truthy v)]. *)
Definition truthy (v : value) : bool :=
  match v with
  | VUndef | VNull | VNaN => false
  | VBool b => b
  | VNum z => negb (z =? 0)%Z
  | VStr s => negb (String.eqb s "")
  | VRef _ => true
  end.

Definition nullish (v : value) : bool :=
  match v with
  | VUndef | VNull => true
  | _ => false
  end.

(** [typeof v === 'function'] *)
Definition is_function (hp : list object) (v : value) : bool :=
  match v with
  | VRef l =>
      match hp !! l with
      | Some (OFun _) | Some (OResolve _) | Some (OReject _) => true
      | _ => false
      end
  | _ => false
  end.

(** The own enumerable properties of the characters of a string, keyed by
    their decimal index, from index [i] on. *)
Fixpoint string_props (i : nat) (s : string) : gmap string value :=
  match s with
  | EmptyString => ∅
  | String c rest => <[pretty i := VStr (String c EmptyString)]> (string_props (S i) rest)
  end.

(** The own enumerable properties [Object.assign] copies from a source.
    [null] and [undefined] sources are skipped, numbers and booleans have
    none, a string contributes its characters. *)
Definition own_props (hp : list object) (v : value) : gmap string value :=
  match v with
  | VRef l =>
      match hp !! l with
      | Some (OPlain props) => props
      | _ => ∅
      end
  | VStr s => string_props 0 s
  | _ => ∅
  end.

(** Reading [v[k]] where [v] is neither [null] nor [undefined]: a missing
    property reads as [undefined]. *)
Definition field (hp : list object) (v : value) (k : string) : value :=
  default VUndef (own_props hp v !! k).

(** [v[k]]; reading a property of [null] or [undefined] is a [TypeError]. *)
Definition get_prop (v : value) (k : string) : M value :=
  if nullish v then throw_new "TypeError" "Cannot read properties of undefined"
  else let* hp := get_heap in ret (field hp v k).

(** Writing the own properties [src] onto the object at [t]; existing
    same-named properties are overwritten. *)
Definition write_props (t : loc) (src : gmap string value) (hp : list object) : list object :=
  match hp !! t with
  | Some (OPlain props) => <[t := OPlain (src ∪ props)]> hp
  | _ => hp
  end.

(** [Object.assign(target, ...sources)]: copies each source's own enumerable
    properties onto the target, left to right, and returns the target. *)
Fixpoint object_assign (target : value) (sources : list value) : M value :=
  match sources with
  | [] => ret target
  | src :: rest =>
      let* _ := match target with
                | VRef t => modify_heap (λ hp, write_props t (own_props hp src) hp)
                | _ => ret tt
                end in
      object_assign target rest
  end.

(** Settling is once only: a promise that is no longer pending stays as it
    is. *)
Definition settle (p : loc) (s : pstate) (hp : list object) : list object :=
  match hp !! p with
  | Some (OPromise Pending) => <[p := OPromise s]> hp
  | _ => hp
  end.

Definition first_arg (args : list value) : value := hd VUndef args.

(** One callback invocation made by a host.  Calling a resolving function
    settles its promise with the first argument; invoking anything else
    (a caller's own callback, say) has no effect on the adapter's store. *)
Definition deliver (hp : list object) (c : value * list value) : list object :=
  match c.1 with
  | VRef l =>
      match hp !! l with
      | Some (OResolve p) => settle p (Resolved (first_arg c.2)) hp
      | Some (OReject p) => settle p (Rejected (first_arg c.2)) hp
      | _ => hp
      end
  | _ => hp
  end.

Definition resolve_path (hp : list object) (args : list value) (pt : path) : value :=
  foldl (field hp) (nth (parg pt) args VUndef) (pfields pt).

Definition resolve_call (hp : list object) (args : list value) (c : hcall) : value * list value :=
  (resolve_path hp args (callee c), payload c).

(** ** The adapter *)

(** [class WeChat]: the only field is the capability object handed to the
    constructor. *)
Record WeChat := { wx : value }.

(** [constructor(wx) { this.wx = wx; }] *)
Definition constructor (wx0 : value) : WeChat := {| wx := wx0 |}.

(** The function [promisify] returns: [(options, ...params) => ...], applied
    to its argument list. *)
Definition invoker : Type := list value → M value.

Section Adapter.

(** The behaviour of the foreign functions: what the function named [h] does
    when called with the given arguments in the given store. *)
Variable ext : nat → list value → list object → behaviour.

(** Calling the value [f] with [args].  A host function is logged and run:
    its synchronous callbacks are delivered, its later ones queued, and the
    call completes as the host says.  Calling what is not a function is a
    [TypeError]. *)
Definition call (f : value) (args : list value) : M value :=
  λ st,
    let not_callable := throw_new "TypeError" "api is not a function" st in
    match f with
    | VRef l =>
        match heap st !! l with
        | Some (OFun h) =>
            let b := ext h args (heap st) in
            let hp := foldl deliver (heap st) (resolve_call (heap st) args <$> during b) in
            (outcome b,
             State hp (log st ++ [(h, args)])
                   (queue st ++ (resolve_call (heap st) args <$> later b)))
        | Some (OResolve p) =>
            (Normal VUndef, with_heap (settle p (Resolved (first_arg args))) st)
        | Some (OReject p) =>
            (Normal VUndef, with_heap (settle p (Rejected (first_arg args))) st)
        | _ => not_callable
        end
    | _ => not_callable
    end.

(** [new Promise(executor)]: the promise and its two resolving functions are
    created, the executor is run with them, and an exception the executor
    throws rejects the promise. *)
Definition new_promise (executor : value → value → M value) : M value :=
  let* p := alloc (OPromise Pending) in
  let* resolve := alloc (OResolve p) in
  let* reject := alloc (OReject p) in
  let* _ := try_catch (executor (VRef resolve) (VRef reject))
                      (λ e, call (VRef reject) [e]) in
  ret (VRef p).

(** The arrow function [(options, ...params) => new Promise(...)] that
    [promisify] returns, closed over [api]. *)
Definition promisify_invoker (api : value) : invoker :=
  λ args,
    let options := first_arg args in
    let params := tl args in
    new_promise (λ resolve reject,
      let* hp := get_heap in
      if is_function hp options then
        let* r := call api [options] in
        call resolve [r]
      else
        let* target := alloc (OPlain ∅) in
        let* callbacks := alloc (OPlain (<["fail" := reject]> {["success" := resolve]})) in
        let* merged := object_assign (VRef target) [options; VRef callbacks] in
        call api (merged :: params)).

(** [promisify(api)] *)
Definition promisify (this : WeChat) (api : value) : M invoker :=
  if negb (truthy (wx this)) then throw_new "Error" "wx对象不存在"
  else ret (promisify_invoker api).

(** [setOption(fun, options)] *)
Definition setOption (this : WeChat) (fun_ : string) (options : value) : M value :=
  if negb (truthy (wx this)) then throw_new "Error" "wx对象不存在"
  else if truthy options then
    let* api := get_prop (wx this) fun_ in
    let* inv := promisify this api in
    inv [options]
  else
    let* api := get_prop (wx this) fun_ in
    let* inv := promisify this api in
    inv [].

(** An [async] method: its promise is created first, then the body runs; a
    returned value resolves the promise and a thrown one rejects it.  The
    call itself always completes normally, with the promise. *)
Definition async (body : M value) : M value :=
  let* p := alloc (OPromise Pending) in
  let* _ := try_catch
              (let* v := body in modify_heap (settle p (Resolved v)))
              (λ e, modify_heap (settle p (Rejected e))) in
  ret (VRef p).

(** The pass-through methods all have the body
    [return this.setOption('name', options)]. *)
Definition passthrough (this : WeChat) (name : string) (options : value) : M value :=
  async (setOption this name options).

Definition login (this : WeChat) (options : value) : M value :=
  async (setOption this "login" options).

Definition request (this : WeChat) (options : value) : M value :=
  async (setOption this "request" options).

(** [getMenuButtonBoundingClientRect()] passes no options at all. *)
Definition getMenuButtonBoundingClientRect (this : WeChat) : M value :=
  async (setOption this "getMenuButtonBoundingClientRect" VUndef).

(** A parameter with a default value takes it when the argument is
    [undefined]. *)
Definition default_url (url : value) : value :=
  match url with
  | VUndef => VStr ""
  | _ => url
  end.

Definition default_data (data : value) : M value :=
  match data with
  | VUndef => let* d := alloc (OPlain ∅) in ret (VRef d)
  | _ => ret data
  end.

(** [Object.assign({}, { method, url, data, header })] *)
Definition verb_options (method : string) (url data header : value) : M value :=
  let* target := alloc (OPlain ∅) in
  let* lit := alloc (OPlain (<["header" := header]> (<["data" := data]>
                       (<["url" := url]> {["method" := VStr method]})))) in
  object_assign (VRef target) [VRef lit].

(** [async get(url = '', data = {}, header)] *)
Definition get (this : WeChat) (url data header : value) : M value :=
  async (
    let url := default_url url in
    let* data := default_data data in
    let* options := verb_options "GET" url data header in
    setOption this "request" options).

(** [async post(url = '', data = {}, header)] *)
Definition post (this : WeChat) (url data header : value) : M value :=
  async (
    let url := default_url url in
    let* data := default_data data in
    let* options := verb_options "POST" url data header in
    setOption this "request" options).

(** [async put(url = '', data = {}, header)] *)
Definition put (this : WeChat) (url data header : value) : M value :=
  async (
    let url := default_url url in
    let* data := default_data data in
    let* options := verb_options "PUT" url data header in
    setOption this "request" options).

(** [async delete(url = '', data = {}, header)]; the name [delete] is taken
    by the deletion of finite maps. *)
Definition delete_ (this : WeChat) (url data header : value) : M value :=
  async (
    let url := default_url url in
    let* data := default_data data in
    let* options := verb_options "DELETE" url data header in
    setOption this "request" options).

(** ** The composition the specification describes

    Following the specification's words for the by-name operation: the
    invoker obtained for the named operation, called with [options] when
    options were supplied and with no argument when they were not. *)
Definition invokeByName_composed (this : WeChat) (name : string) (options : value) : M value :=
  match options with
  | VUndef =>
      let* api := get_prop (wx this) name in
      let* inv := promisify this api in
      inv []
  | _ =>
      let* api := get_prop (wx this) name in
      let* inv := promisify this api in
      inv [options]
  end.

End Adapter.

(** ** Observations on stores *)

(** Letting the hosts' scheduled callbacks run, oldest first. *)
Definition drain (st : state) : state :=
  State (foldl deliver (heap st) (queue st)) (log st) [].

(** The state of the promise at [p]. *)
Definition promise_state (hp : list object) (p : loc) : option pstate :=
  match hp !! p with
  | Some (OPromise s) => Some s
  | _ => None
  end.


(** A value of the store: a reference points at an existing object. *)
Definition val_in (hp : list object) (v : value) : Prop :=
  match v with
  | VRef l => l < length hp
  | _ => True
  end.

(** No resolving function of the store belongs to a promise that does not
    exist yet. *)
Definition heap_ok (hp : list object) : Prop :=
  ∀ l p, hp !! l = Some (OResolve p) ∨ hp !! l = Some (OReject p) → p < length hp.

(** The callbacks waiting in the queue are values of the store. *)
Definition queue_ok (st : state) : Prop :=
  Forall (λ c, val_in (heap st) c.1) (queue st).

Definition wf (st : state) : Prop := heap_ok (heap st) ∧ queue_ok st.

(** [evolves hp hp']: every object of [hp] is still in [hp'], at the same
    place and unchanged, except that a pending promise may have been
    settled. *)
Definition evolves (hp hp' : list object) : Prop :=
  ∀ l o, hp !! l = Some o →
    match o with
    | OPromise Pending => ∃ s, hp' !! l = Some (OPromise s)
    | _ => hp' !! l = Some o
    end.

(** What a sequence of callback invocations tells a promise whose resolving
    functions are [success] and [fail]: the first invocation of either one
    decides. *)
Fixpoint first_report (success fail : value) (calls : list (value * list value)) : option pstate :=
  match calls with
  | [] => None
  | c :: rest =>
      if decide (c.1 = success) then Some (Resolved (first_arg c.2))
      else if decide (c.1 = fail) then Some (Rejected (first_arg c.2))
      else first_report success fail rest
  end.

(** What one run of a host function tells that promise: its synchronous
    callbacks come first, then an exception it throws, then its later
    callbacks. *)
Definition verdict (success fail : value) (hp : list object) (args : list value)
    (b : behaviour) : option pstate :=
  match first_report success fail (resolve_call hp args <$> during b) with
  | Some s => Some s
  | None =>
      match outcome b with
      | Throw e => Some (Rejected e)
      | Normal _ => first_report success fail (resolve_call hp args <$> later b)
      end
  end.

(** The host function [hb] reports [s] through the [success] and [fail]
    fields of the options object it is given, whatever the call (as long as
    the two fields hold different callbacks). *)
Definition reports (hb : list value → list object → behaviour) (s : pstate) : Prop :=
  ∀ args hp,
    field hp (first_arg args) "success" ≠ field hp (first_arg args) "fail" →
    verdict (field hp (first_arg args) "success") (field hp (first_arg args) "fail")
            hp args (hb args hp) = Some s.

(** The frame judgement: run from a store that evolved from [hp0], the
    computation [c] leaves a store that still evolved from [hp0], and a
    normal result satisfies [Q]. *)
Definition framed {A} (hp0 : list object) (c : M A) (Q : A → Prop) : Prop :=
  ∀ st, evolves hp0 (heap st) →
    evolves hp0 (heap (c st).2) ∧ ∀ a, (c st).1 = Normal a → Q a.

(** ** Stores reached by an invoker *)

(** The store in which the host operation is called in the
    structured-options branch: the promise, its two resolving functions, the
    merged options object and the [{ success, fail }] literal have been
    added to [hp]. *)
Definition structured_store (hp : list object) (options : value) : list object :=
  let p := length hp in
  hp ++ [OPromise Pending; OResolve p; OReject p;
         OPlain (<["fail" := VRef (p + 2)]> (<["success" := VRef (p + 1)]> (own_props hp options)));
         OPlain (<["fail" := VRef (p + 2)]> {["success" := VRef (p + 1)]})].

(** The store in which the host operation is called in the bare-callback
    branch. *)
Definition bare_store (hp : list object) : list object :=
  let p := length hp in
  hp ++ [OPromise Pending; OResolve p; OReject p].

(** The store after [throw new Error('wx对象不存在')]: the error object has
    been added and nothing else has changed. *)
Definition absent_store (st : state) : state :=
  State (heap st ++ [OError "Error" "wx对象不存在"]) (log st) (queue st).

(** [r] and [j] are the resolving functions of the promise at [p], and its
    only ones. *)
Definition sole_resolvers (hp : list object) (p r j : loc) : Prop :=
  hp !! r = Some (OResolve p) ∧ hp !! j = Some (OReject p) ∧
  ∀ l, (hp !! l = Some (OResolve p) → l = r) ∧ (hp !! l = Some (OReject p) → l = j).

Definition no_resolvers (hp : list object) (p : loc) : Prop :=
  ∀ l, hp !! l ≠ Some (OResolve p) ∧ hp !! l ≠ Some (OReject p).

(** The operation [name] of the adapter's capability object is the host
    function [h]. *)
Definition host_operation (hp : list object) (this : WeChat) (name : string) (h : nat) : Prop :=
  truthy (wx this) = true ∧
  ∃ hl, field hp (wx this) name = VRef hl ∧ hp !! hl = Some (OFun h).

(** A run that ends in an exception without having called a host function,
    queued a callback, or created a promise. *)
Definition throws_quietly {A} (st : state) (run : completion A * state) : Prop :=
  (∃ e, run.1 = Throw e) ∧
  log run.2 = log st ∧ queue run.2 = queue st ∧
  ∀ l s, heap run.2 !! l = Some (OPromise s) → heap st !! l = Some (OPromise s).

(** ** The HTTP-verb shortcuts, observed *)

(** The fields of the object literal [{ method, url, data, header }]. *)
Definition verb_fields (method : string) (url data header : value) : gmap string value :=
  <["header" := header]> (<["data" := data]> (<["url" := url]> {["method" := VStr method]})).

(** [run] is a run from [st] that returned the promise created first and
    called the host function [h] once, with a single argument: an object
    new to the store whose fields are [method], [url] (defaulted), [data]
    (defaulted), [header], and as [success] and [fail] the two resolving
    functions of one promise. *)
Definition request_called_with (st : state) (h : nat) (method : string)
    (url data header : value) (run : completion value * state) : Prop :=
  ∃ m d p,
    run.1 = Normal (VRef (length (heap st))) ∧
    log run.2 = log st ++ [(h, [VRef m])] ∧
    heap st !! m = None ∧
    heap run.2 !! m
    = Some (OPlain (<["fail" := VRef (p + 2)]> (<["success" := VRef (p + 1)]>
              (<["header" := header]> (<["data" := d]> (<["url" := default_url url]>
                 {["method" := VStr method]})))))) ∧
    heap run.2 !! (p + 1) = Some (OResolve p) ∧
    heap run.2 !! (p + 2) = Some (OReject p) ∧
    match data with
    | VUndef => ∃ l, d = VRef l ∧ heap st !! l = None ∧ heap run.2 !! l = Some (OPlain ∅)
    | _ => d = data
    end.

(** ** A small capability object to run the adapter on *)

(** Host functions of the example: [0] calls [success] at once with the
    object at 5, [1] returns and later calls [fail] with the object at 6,
    [2] takes a bare callback, calls it and returns 7. *)
Definition demo_ext (h : nat) (args : list value) (hp : list object) : behaviour :=
  match h with
  | 0 => Behaviour [HCall (Path 0 ["success"]) [VRef 5]] (Normal VUndef) []
  | 1 => Behaviour [] (Normal VUndef) [HCall (Path 0 ["fail"]) [VRef 6]]
  | _ => Behaviour [HCall (Path 0 []) [VNum 1]] (Normal (VNum 7)) []
  end.

(** The store of the example: the three host functions, the capability
    object [{ login, request, nextTick }] at 3, an options object
    [{ timeout: 5 }] at 4, the payloads [{ errMsg: 'login:ok', code: 'abc' }]
    at 5 and [{ errMsg: 'request:fail timeout' }] at 6, an empty object at 7
    and a callback of the caller at 8. *)
Definition demo_store : state :=
  State [OFun 0; OFun 1; OFun 2;
         OPlain (<["login" := VRef 0]> (<["request" := VRef 1]> {["nextTick" := VRef 2]}));
         OPlain {["timeout" := VNum 5]};
         OPlain (<["errMsg" := VStr "login:ok"]> {["code" := VStr "abc"]});
         OPlain {["errMsg" := VStr "request:fail timeout"]};
         OPlain ∅;
         OFun 3]
        [] [].

Definition demo_adapter : WeChat := constructor (VRef 3).

(** ** The earlier version of the class

    [src/unnamed/part_001] holds an earlier [WeChat] class with the same
    constructor and pass-through methods; its [promisify] has no
    bare-callback branch and its [setOption] always passes [options] on. *)
Module Earlier.
Section Adapter.

Variable ext : nat → list value → list object → behaviour.

(** [(options, ...params) => new Promise((resolve, reject) =>
      api(Object.assign({}, options, { success: resolve, fail: reject }), ...params))] *)
Definition promisify_invoker (api : value) : invoker :=
  λ args,
    let options := first_arg args in
    let params := tl args in
    new_promise ext (λ resolve reject,
      let* target := alloc (OPlain ∅) in
      let* callbacks := alloc (OPlain (<["fail" := reject]> {["success" := resolve]})) in
      let* merged := object_assign (VRef target) [options; VRef callbacks] in
      call ext api (merged :: params)).

(** [promisify(api)] *)
Definition promisify (this : WeChat) (api : value) : M invoker :=
  if negb (truthy (wx this)) then throw_new "Error" "wx对象不存在"
  else ret (promisify_invoker api).

(** [setOption(fun, options)] *)
Definition setOption (this : WeChat) (fun_ : string) (options : value) : M value :=
  if negb (truthy (wx this)) then throw_new "Error" "wx对象不存在"
  else
    let* api := get_prop (wx this) fun_ in
    let* inv := promisify this api in
    inv [options].

End Adapter.
End Earlier.

(** ** Further observations *)

(** Every reference held in a field of a plain object points at an existing
    object. *)
Definition closed (hp : list object) : Prop :=
  ∀ l props k v, hp !! l = Some (OPlain props) → props !! k = Some v → val_in hp v.

(** The host function [hb] throws [e] before invoking any callback. *)
Definition throws_at_once (hb : list value → list object → behaviour) (e : value) : Prop :=
  ∀ args hp, during (hb args hp) = [] ∧ outcome (hb args hp) = Throw e.

(** The host function [hb] returns without ever invoking a callback. *)
Definition never_calls_back (hb : list value → list object → behaviour) : Prop :=
  ∀ args hp, during (hb args hp) = [] ∧ later (hb args hp) = [] ∧
             ∃ v, outcome (hb args hp) = Normal v.

(** The log grew by at most one call. *)
Definition at_most_one_call (before after : list (nat * list value)) : Prop :=
  after = before ∨ ∃ h args, after = before ++ [(h, args)].

(** Other host functions for the same store: [0] throws at once, every
    other one returns 7 and never calls back. *)
Definition faulty_ext (h : nat) (args : list value) (hp : list object) : behaviour :=
  match h with
  | 0 => Behaviour [] (Throw (VStr "boom")) []
  | _ => Behaviour [] (Normal (VNum 7)) []
  end.

(** [run] is a run from [st] that returned normally, with the promise
    created first, called no host function, and left that promise rejected
    with a new [Error] carrying [wx对象不存在]. *)
Definition rejected_for_absent_wx (st : state) (run : completion value * state) : Prop :=
  run.1 = Normal (VRef (length (heap st))) ∧
  log run.2 = log st ∧
  ∃ e, heap st !! e = None ∧
       promise_state (heap run.2) (length (heap st)) = Some (Rejected (VRef e)) ∧
       heap run.2 !! e = Some (OError "Error" "wx对象不存在").

(** [run] is a run from [st] that returned the promise created first; once
    the queued callbacks have run, that promise is resolved with a second
    promise [p], and [p] is in state [s]. *)
Definition settles_through (st : state) (s : pstate) (run : completion value * state) : Prop :=
  run.1 = Normal (VRef (length (heap st))) ∧
  ∃ p, heap st !! p = None ∧
       promise_state (heap (drain run.2)) (length (heap st)) = Some (Resolved (VRef p)) ∧
       promise_state (heap (drain run.2)) p = Some s.

(** No object of the list is a resolving function. *)
Definition inert (objs : list object) : Prop :=
  ∀ i p, objs !! i ≠ Some (OResolve p) ∧ objs !! i ≠ Some (OReject p).

(** The executor that the invoker of [promisify] hands to [new Promise],
    named so that it can be reasoned about on its own. *)
Definition executor (ext : nat → list value → list object → behaviour)
    (api options : value) (params : list value) (resolve reject : value) : M value :=
  let* hp := get_heap in
  if is_function hp options then
    let* r := call ext api [options] in
    call ext resolve [r]
  else
    let* target := alloc (OPlain ∅) in
    let* callbacks := alloc (OPlain (<["fail" := reject]> {["success" := resolve]})) in
    let* merged := object_assign (VRef target) [options; VRef callbacks] in
    call ext api (merged :: params).

(** A second store: the host function [0] and, at 1, a capability object
    offering it as [getMenuButtonBoundingClientRect]. *)
Definition menu_store : state :=
  State [OFun 0; OPlain {["getMenuButtonBoundingClientRect" := VRef 0]}] [] [].

(** [run] is a run from [st] that returned normally, with the promise
    created first, called no host function, and left that promise resolved
    with a second promise that is rejected with a new [TypeError]. *)
Definition rejected_for_missing_operation (st : state)
    (run : completion value * state) : Prop :=
  run.1 = Normal (VRef (length (heap st))) ∧
  log run.2 = log st ∧
  ∃ p e, heap st !! p = None ∧ heap st !! e = None ∧
         promise_state (heap run.2) (length (heap st)) = Some (Resolved (VRef p)) ∧
         promise_state (heap run.2) p = Some (Rejected (VRef e)) ∧
         heap run.2 !! e = Some (OError "TypeError" "api is not a function").

(** * Properties *)

(** ** Stores only evolve *)

Lemma evolves_refl hp : evolves hp hp.
Proof. intros l o H. destruct o as [| | | | |[]]; eauto. Qed.

Lemma evolves_trans hp1 hp2 hp3 :
  evolves hp1 hp2 → evolves hp2 hp3 → evolves hp1 hp3.
Proof.
  intros H12 H23 l o H. specialize (H12 l o H).
  destruct o as [| | | | |[]]; try (apply (H23 _ _ H12)).
  destruct H12 as [s Hs]. specialize (H23 _ _ Hs).
  destruct s; eauto.
Qed.

Lemma evolves_length hp hp' : evolves hp hp' → length hp ≤ length hp'.
Proof.
  intros H. destruct (decide (length hp ≤ length hp')) as [|Hn]; [done|].
  assert (Hlt : length hp' < length hp) by lia.
  destruct (lookup_lt_is_Some_2 hp (length hp') Hlt) as [o Ho].
  specialize (H _ _ Ho).
  assert (Hnone : hp' !! length hp' = None) by (apply lookup_ge_None; lia).
  destruct o as [| | | | |[]]; try congruence.
  destruct H as [s Hs]. congruence.
Qed.

Lemma evolves_app hp news : evolves hp (hp ++ news).
Proof.
  intros l o H.
  assert (Hl : (hp ++ news) !! l = Some o) by (by apply lookup_app_l_Some).
  destruct o as [| | | | |[]]; eauto.
Qed.

Lemma evolves_insert_pending hp p s :
  hp !! p = Some (OPromise Pending) → evolves hp (<[p := OPromise s]> hp).
Proof.
  intros Hp l o H. destruct (decide (l = p)) as [->|Hne].
  - rewrite Hp in H. injection H as <-. exists s.
    apply list_lookup_insert_eq. by eapply lookup_lt_Some.
  - assert (Hl : <[p := OPromise s]> hp !! l = Some o)
      by (by rewrite list_lookup_insert_ne).
    destruct o as [| | | | |[]]; eauto.
Qed.

Lemma evolves_settle hp p s : evolves hp (settle p s hp).
Proof.
  unfold settle. destruct (hp !! p) as [[| | | | |[]]|] eqn:E;
    auto using evolves_refl, evolves_insert_pending.
Qed.

Lemma evolves_deliver hp c : evolves hp (deliver hp c).
Proof.
  unfold deliver. destruct c.1; try apply evolves_refl.
  destruct (hp !! l) as [[]|]; auto using evolves_refl, evolves_settle.
Qed.

Lemma evolves_deliver_all cs : ∀ hp, evolves hp (foldl deliver hp cs).
Proof.
  induction cs as [|c cs IH]; intros hp; simpl; [apply evolves_refl|].
  eapply evolves_trans; [apply evolves_deliver | apply IH].
Qed.

Lemma write_props_lookup_ne hp t src l :
  l ≠ t → write_props t src hp !! l = hp !! l.
Proof.
  intros Hne. unfold write_props.
  destruct (hp !! t) as [[]|]; try done.
  by rewrite list_lookup_insert_ne.
Qed.

(** Writing into an object that did not exist in [hp0] leaves [hp0]'s
    objects alone. *)
Lemma evolves_write_props hp0 hp t src :
  evolves hp0 hp → length hp0 ≤ t → evolves hp0 (write_props t src hp).
Proof.
  intros Hev Ht l o H.
  assert (l ≠ t) by (apply lookup_lt_Some in H; lia).
  rewrite write_props_lookup_ne by done. apply (Hev l o H).
Qed.

(** A plain object (indeed anything but a pending promise) is found
    unchanged in every later store. *)
Lemma evolves_plain hp hp' l props :
  evolves hp hp' → hp !! l = Some (OPlain props) → hp' !! l = Some (OPlain props).
Proof. intros H Hl. apply (H _ _ Hl). Qed.

(** ** Rules of the frame judgement *)

Lemma framed_ret {A} hp0 (a : A) (Q : A → Prop) : Q a → framed hp0 (ret a) Q.
Proof. intros HQ st Hev. split; [done|]. simpl. by intros ? [= <-]. Qed.

Lemma framed_throw {A} hp0 e (Q : A → Prop) : framed hp0 (throw e) Q.
Proof. intros st Hev. split; [done|]. simpl. intros ? [=]. Qed.

Lemma framed_bind {A B} hp0 (c : M A) (k : A → M B) Q R :
  framed hp0 c Q → (∀ a, Q a → framed hp0 (k a) R) → framed hp0 (bind c k) R.
Proof.
  intros Hc Hk st Hev. unfold bind. destruct (Hc st Hev) as [Hev1 HQ].
  destruct (c st) as [[a|e] st1]; simpl in *.
  - apply (Hk a (HQ a eq_refl) st1 Hev1).
  - split; [done|]. intros ? [=].
Qed.

Lemma framed_try_catch {A} hp0 (c : M A) handler Q :
  framed hp0 c Q → (∀ e, framed hp0 (handler e) Q) → framed hp0 (try_catch c handler) Q.
Proof.
  intros Hc Hh st Hev. unfold try_catch. destruct (Hc st Hev) as [Hev1 HQ].
  destruct (c st) as [[a|e] st1]; simpl in *.
  - split; [done|]. intros ? [= <-]. by apply HQ.
  - apply (Hh e st1 Hev1).
Qed.

Lemma framed_weaken {A} hp0 (c : M A) (Q R : A → Prop) :
  framed hp0 c Q → (∀ a, Q a → R a) → framed hp0 c R.
Proof. intros Hc HQR st Hev. destruct (Hc st Hev). split; auto. Qed.

Lemma framed_get_heap hp0 : framed hp0 get_heap (λ _, True).
Proof. intros st Hev. split; [done|]. done. Qed.

Lemma framed_modify_heap hp0 f :
  (∀ hp, evolves hp0 hp → evolves hp0 (f hp)) → framed hp0 (modify_heap f) (λ _, True).
Proof. intros Hf st Hev. split; [by apply Hf|]. done. Qed.

Lemma framed_alloc hp0 o : framed hp0 (alloc o) (λ l, length hp0 ≤ l).
Proof.
  intros st Hev. simpl. split.
  - eapply evolves_trans; [exact Hev | apply evolves_app].
  - intros ? [= <-]. by apply evolves_length.
Qed.

Lemma framed_throw_new {A} hp0 name message (Q : A → Prop) :
  framed hp0 (throw_new name message) Q.
Proof.
  unfold throw_new. eapply framed_bind; [apply framed_alloc|].
  intros. apply framed_throw.
Qed.

Lemma framed_get_prop hp0 v k : framed hp0 (get_prop v k) (λ _, True).
Proof.
  unfold get_prop. destruct (nullish v); [apply framed_throw_new|].
  eapply framed_bind; [apply framed_get_heap|]. intros. by apply framed_ret.
Qed.

Lemma framed_object_assign hp0 t sources :
  length hp0 ≤ t → framed hp0 (object_assign (VRef t) sources) (λ _, True).
Proof.
  intros Ht. induction sources as [|src rest IH]; simpl.
  - by apply framed_ret.
  - eapply framed_bind; [|intros; apply IH].
    apply framed_modify_heap. intros hp Hev.
    by apply evolves_write_props.
Qed.

Section Frame.

Variable ext : nat → list value → list object → behaviour.
Variable hp0 : list object.

Lemma framed_call f args : framed hp0 (call ext f args) (λ _, True).
Proof.
  intros st Hev. split; [|done]. unfold call.
  assert (Hnc : evolves hp0 (heap (throw_new (A := value) "TypeError" "api is not a function" st).2)).
  { simpl. eapply evolves_trans; [exact Hev | apply evolves_app]. }
  destruct f; try exact Hnc.
  destruct (heap st !! l) as [[]|]; try exact Hnc; simpl.
  - eapply evolves_trans; [exact Hev | apply evolves_deliver_all].
  - eapply evolves_trans; [exact Hev | apply evolves_settle].
  - eapply evolves_trans; [exact Hev | apply evolves_settle].
Qed.

Lemma framed_new_promise executor :
  (∀ resolve reject, framed hp0 (executor resolve reject) (λ _, True)) →
  framed hp0 (new_promise ext executor) (λ _, True).
Proof.
  intros Hex. unfold new_promise.
  eapply framed_bind; [apply framed_alloc|]. intros p _.
  eapply framed_bind; [apply framed_alloc|]. intros resolve _.
  eapply framed_bind; [apply framed_alloc|]. intros reject _.
  eapply framed_bind; [|intros; by apply framed_ret].
  apply framed_try_catch; [apply Hex|]. intros e. apply framed_call.
Qed.

Lemma framed_promisify_invoker api args :
  framed hp0 (promisify_invoker ext api args) (λ _, True).
Proof.
  unfold promisify_invoker. apply framed_new_promise. intros resolve reject.
  eapply framed_bind; [apply framed_get_heap|]. intros hp _.
  destruct (is_function hp (first_arg args)).
  - eapply framed_bind; [apply framed_call|]. intros. apply framed_call.
  - eapply framed_bind; [apply framed_alloc|]. intros target Ht.
    eapply framed_bind; [apply framed_alloc|]. intros callbacks _.
    eapply framed_bind; [by apply framed_object_assign|]. intros merged _.
    apply framed_call.
Qed.

Lemma framed_setOption this name options :
  framed hp0 (setOption ext this name options) (λ _, True).
Proof.
  unfold setOption, promisify.
  destruct (negb (truthy (wx this))); [apply framed_throw_new|].
  destruct (truthy options);
    (eapply framed_bind; [apply framed_get_prop|]; intros api _;
     eapply framed_bind;
       [by apply (framed_ret _ _ (λ i, i = promisify_invoker ext api))|]; intros inv ->;
     apply framed_promisify_invoker).
Qed.

Lemma framed_async body :
  framed hp0 body (λ _, True) → framed hp0 (async body) (λ _, True).
Proof.
  intros Hb. unfold async.
  eapply framed_bind; [apply framed_alloc|]. intros p _.
  eapply framed_bind; [|intros; by apply framed_ret].
  apply framed_try_catch.
  - eapply framed_bind; [exact Hb|]. intros v _.
    apply framed_modify_heap. intros hp Hev.
    eapply evolves_trans; [exact Hev | apply evolves_settle].
  - intros e. apply framed_modify_heap. intros hp Hev.
    eapply evolves_trans; [exact Hev | apply evolves_settle].
Qed.

Lemma framed_verb this method url data header :
  framed hp0
    (let* data := default_data data in
     let* options := verb_options method (default_url url) data header in
     setOption ext this "request" options) (λ _, True).
Proof.
  eapply framed_bind.
  { instantiate (1 := λ _, True). destruct data; try by apply framed_ret.
    simpl. eapply framed_bind; [apply framed_alloc|]. intros; by apply framed_ret. }
  intros d _. eapply framed_bind; [|intros; apply framed_setOption].
  unfold verb_options.
  eapply framed_bind; [apply framed_alloc|]. intros target Ht.
  eapply framed_bind; [apply framed_alloc|]. intros lit _.
  by apply framed_object_assign.
Qed.

End Frame.

(** Every adapter operation, run in any store, leaves a store that evolved
    from it. *)
Lemma operations_evolve ext this st :
  (∀ api args, evolves (heap st) (heap (promisify_invoker ext api args st).2)) ∧
  (∀ api, evolves (heap st) (heap (promisify ext this api st).2)) ∧
  (∀ name options, evolves (heap st) (heap (setOption ext this name options st).2)) ∧
  (∀ name options, evolves (heap st) (heap (passthrough ext this name options st).2)) ∧
  (∀ url data header, evolves (heap st) (heap (get ext this url data header st).2)) ∧
  (∀ url data header, evolves (heap st) (heap (post ext this url data header st).2)) ∧
  (∀ url data header, evolves (heap st) (heap (put ext this url data header st).2)) ∧
  (∀ url data header, evolves (heap st) (heap (delete_ ext this url data header st).2)).
Proof.
  pose proof (evolves_refl (heap st)) as Hr.
  repeat split; intros.
  - apply (framed_promisify_invoker ext (heap st) api args st Hr).
  - unfold promisify. destruct (negb (truthy (wx this))); [|apply Hr].
    apply (framed_throw_new (A := invoker) (heap st) _ _ (λ _, True) st Hr).
  - apply (framed_setOption ext (heap st) this name options st Hr).
  - apply (framed_async (heap st) _ (framed_setOption ext (heap st) this name options) st Hr).
  - apply (framed_async (heap st) _ (framed_verb ext (heap st) this "GET" url data header) st Hr).
  - apply (framed_async (heap st) _ (framed_verb ext (heap st) this "POST" url data header) st Hr).
  - apply (framed_async (heap st) _ (framed_verb ext (heap st) this "PUT" url data header) st Hr).
  - apply (framed_async (heap st) _ (framed_verb ext (heap st) this "DELETE" url data header) st Hr).
Qed.

(** ** Stores of the shape [hp ++ news] *)

Lemma lookup_app_plus {A} (hp news : list A) i :
  (hp ++ news) !! (length hp + i) = news !! i.
Proof. rewrite lookup_app_r by lia. f_equal. lia. Qed.

Lemma lookup_app_length {A} (hp news : list A) :
  (hp ++ news) !! length hp = news !! 0.
Proof. by rewrite <- (lookup_app_plus hp news 0), Nat.add_0_r. Qed.

Lemma lookup_app_old {A} (hp news : list A) l :
  l < length hp → (hp ++ news) !! l = hp !! l.
Proof. intros. by apply lookup_app_l. Qed.

Lemma insert_app_plus {A} (hp news : list A) i x :
  <[length hp + i := x]> (hp ++ news) = hp ++ <[i := x]> news.
Proof. apply insert_app_r. Qed.

Lemma val_in_app hp news v : val_in hp v → val_in (hp ++ news) v.
Proof. destruct v; simpl; auto. rewrite length_app. lia. Qed.

Lemma is_function_app hp news v :
  val_in hp v → is_function (hp ++ news) v = is_function hp v.
Proof. destruct v; simpl; auto. intros. by rewrite lookup_app_old. Qed.

Lemma own_props_app hp news v :
  val_in hp v → own_props (hp ++ news) v = own_props hp v.
Proof. destruct v; simpl; auto. intros. by rewrite lookup_app_old. Qed.

Lemma is_function_val_in hp v : is_function hp v = true → val_in hp v.
Proof.
  destruct v; simpl; auto. intros H.
  destruct (hp !! l) eqn:E; [|done]. by eapply lookup_lt_Some.
Qed.

Lemma write_props_app_plus hp news i src props :
  news !! i = Some (OPlain props) →
  write_props (length hp + i) src (hp ++ news) = hp ++ <[i := OPlain (src ∪ props)]> news.
Proof.
  intros H. unfold write_props. rewrite lookup_app_plus, H.
  apply insert_app_plus.
Qed.

(** ** Running the monad step by step *)

Lemma bind_ret {A B} (a : A) (k : A → M B) st : bind (ret a) k st = k a st.
Proof. done. Qed.

Lemma bind_get_heap {B} (k : list object → M B) st :
  bind get_heap k st = k (heap st) st.
Proof. done. Qed.

Lemma bind_modify_heap {B} f (k : unit → M B) st :
  bind (modify_heap f) k st = k tt (with_heap f st).
Proof. done. Qed.

Lemma bind_alloc {B} o (k : loc → M B) hp lg q :
  bind (alloc o) k (State hp lg q) = k (length hp) (State (hp ++ [o]) lg q).
Proof. done. Qed.

Lemma bind_alloc_app {B} o (k : loc → M B) hp news lg q :
  bind (alloc o) k (State (hp ++ news) lg q)
  = k (length hp + length news) (State (hp ++ (news ++ [o])) lg q).
Proof.
  unfold bind, alloc, with_heap. simpl. by rewrite length_app, <- app_assoc.
Qed.

Lemma bind_normal {A B} (c : M A) (k : A → M B) st a st' :
  c st = (Normal a, st') → bind c k st = k a st'.
Proof. intros H. unfold bind. by rewrite H. Qed.

Lemma bind_thrown {A B} (c : M A) (k : A → M B) st e st' :
  c st = (Throw e, st') → bind c k st = (Throw e, st').
Proof. intros H. unfold bind. by rewrite H. Qed.

Lemma try_catch_normal {A} (c : M A) handler st a st' :
  c st = (Normal a, st') → try_catch c handler st = (Normal a, st').
Proof. intros H. unfold try_catch. by rewrite H. Qed.

Lemma try_catch_thrown {A} (c : M A) handler st e st' :
  c st = (Throw e, st') → try_catch c handler st = handler e st'.
Proof. intros H. unfold try_catch. by rewrite H. Qed.

Lemma throw_new_run {A} name message hp lg q :
  throw_new (A := A) name message (State hp lg q)
  = (Throw (VRef (length hp)), State (hp ++ [OError name message]) lg q).
Proof. done. Qed.

(** [Object.assign(target, src, callbacks)] for a target and a callbacks
    object among the new objects. *)
Lemma object_assign_fresh hp news lg q i j tp cb src :
  news !! i = Some (OPlain tp) → news !! j = Some (OPlain cb) → i ≠ j →
  val_in hp src →
  object_assign (VRef (length hp + i)) [src; VRef (length hp + j)] (State (hp ++ news) lg q)
  = (Normal (VRef (length hp + i)),
     State (hp ++ <[i := OPlain (cb ∪ (own_props hp src ∪ tp))]> news) lg q).
Proof.
  intros Hi Hj Hne Hv. simpl. rewrite !bind_modify_heap. unfold ret, with_heap. simpl.
  rewrite own_props_app by done.
  rewrite (write_props_app_plus _ _ _ _ tp) by done.
  rewrite lookup_app_plus, list_lookup_insert_ne, Hj by done.
  rewrite (write_props_app_plus _ _ _ _ (own_props hp src ∪ tp)).
  - by rewrite list_insert_insert_eq.
  - apply list_lookup_insert_eq. by eapply lookup_lt_Some.
Qed.

Section Runs.

Variable ext : nat → list value → list object → behaviour.

(** Calling a host function. *)
Lemma call_host hl h args st :
  heap st !! hl = Some (OFun h) →
  call ext (VRef hl) args st
  = (outcome (ext h args (heap st)),
     State (foldl deliver (heap st) (resolve_call (heap st) args <$> during (ext h args (heap st))))
           (log st ++ [(h, args)])
           (queue st ++ (resolve_call (heap st) args <$> later (ext h args (heap st))))).
Proof. intros H. unfold call. by rewrite H. Qed.

(** Calling a resolving function. *)
Lemma call_resolve r p args st :
  heap st !! r = Some (OResolve p) →
  call ext (VRef r) args st
  = (Normal VUndef, with_heap (settle p (Resolved (first_arg args))) st).
Proof. intros H. unfold call. by rewrite H. Qed.

Lemma call_reject j p args st :
  heap st !! j = Some (OReject p) →
  call ext (VRef j) args st
  = (Normal VUndef, with_heap (settle p (Rejected (first_arg args))) st).
Proof. intros H. unfold call. by rewrite H. Qed.

(** Calling what is not a function. *)
Lemma call_not_function f args st :
  is_function (heap st) f = false →
  call ext f args st = throw_new "TypeError" "api is not a function" st.
Proof.
  intros H. unfold call. destruct f; try done. simpl in H.
  by destruct (heap st !! l) as [[]|].
Qed.

End Runs.

Lemma merged_props (r j : value) (own : gmap string value) :
  <["fail" := j]> {["success" := r]} ∪ (own ∪ ∅)
  = <["fail" := j]> (<["success" := r]> own).
Proof.
  rewrite (right_id_L ∅ (∪)).
  rewrite <- insert_union_l. f_equal.
  by rewrite <- insert_union_singleton_l.
Qed.

(** ** What an invoker does, branch by branch *)

Section Invoker.

Variable ext : nat → list value → list object → behaviour.

(** With options that are not a function, the invoker comes down to one
    call of [api] on the merged options object followed by the extra
    arguments, inside the executor's exception handler. *)
Lemma invoker_structured api args hp lg q :
  val_in hp (first_arg args) → is_function hp (first_arg args) = false →
  promisify_invoker ext api args (State hp lg q)
  = (let* _ := try_catch (call ext api (VRef (length hp + 3) :: tl args))
                         (λ e, call ext (VRef (length hp + 2)) [e]) in
     ret (VRef (length hp)))
      (State (structured_store hp (first_arg args)) lg q).
Proof.
  intros Hv Hf. unfold promisify_invoker, new_promise.
  rewrite bind_alloc, !bind_alloc_app. cbn [length app].
  unfold bind at 1 3. f_equal. unfold try_catch.
  rewrite bind_get_heap. cbn [heap].
  rewrite is_function_app, Hf by done.
  rewrite !bind_alloc_app. cbn [length app].
  erewrite bind_normal; [|by apply object_assign_fresh]. cbn [list_insert].
  by rewrite merged_props.
Qed.

(** With a function as options, the invoker calls [api] on that function
    alone and hands what it returns to [resolve]. *)
Lemma invoker_bare api args hp lg q :
  is_function hp (first_arg args) = true →
  promisify_invoker ext api args (State hp lg q)
  = (let* _ := try_catch (let* r := call ext api [first_arg args] in
                          call ext (VRef (length hp + 1)) [r])
                         (λ e, call ext (VRef (length hp + 2)) [e]) in
     ret (VRef (length hp)))
      (State (bare_store hp) lg q).
Proof.
  intros Hf. unfold promisify_invoker, new_promise.
  rewrite bind_alloc, !bind_alloc_app. cbn [length app].
  unfold bind at 1 3. f_equal. unfold try_catch.
  rewrite bind_get_heap. cbn [heap].
  by rewrite is_function_app, Hf by (by apply is_function_val_in).
Qed.

End Invoker.

(** ** How deliveries settle a promise *)

Lemma settle_lookup p s hp l :
  settle p s hp !! l
  = if decide (l = p)
    then match hp !! l with
         | Some (OPromise Pending) => Some (OPromise s)
         | x => x
         end
    else hp !! l.
Proof.
  unfold settle. destruct (decide (l = p)) as [->|Hne].
  - destruct (hp !! p) as [[| | | | |[]]|] eqn:E; rewrite ?E; try done.
    apply list_lookup_insert_eq. by eapply lookup_lt_Some.
  - destruct (hp !! p) as [[| | | | |[]]|] eqn:E; try done.
    by rewrite list_lookup_insert_ne.
Qed.

Lemma promise_state_settle p s hp q :
  promise_state (settle q s hp) p
  = match promise_state hp p with
    | Some Pending => Some (if decide (p = q) then s else Pending)
    | x => x
    end.
Proof.
  unfold promise_state. rewrite settle_lookup.
  destruct (decide (p = q)); destruct (hp !! p) as [[| | | | |[]]|]; done.
Qed.

(** Settling changes promise cells only. *)
Lemma settle_lookup_function p s hp l o :
  (∀ s', o ≠ OPromise s') →
  settle p s hp !! l = Some o ↔ hp !! l = Some o.
Proof.
  intros Ho. rewrite settle_lookup. case_decide; [|reflexivity].
  destruct (hp !! l) as [[| | | | |[]]|]; try reflexivity.
  split; intros [= <-]; by edestruct Ho.
Qed.

Lemma deliver_lookup_function hp c l o :
  (∀ s', o ≠ OPromise s') →
  deliver hp c !! l = Some o ↔ hp !! l = Some o.
Proof.
  intros Ho. unfold deliver. destruct c.1; try reflexivity.
  destruct (hp !! l0) as [[]|]; try reflexivity; by apply settle_lookup_function.
Qed.

Lemma deliver_all_lookup_function cs : ∀ hp l o,
  (∀ s', o ≠ OPromise s') →
  foldl deliver hp cs !! l = Some o ↔ hp !! l = Some o.
Proof.
  induction cs as [|c cs IH]; intros hp l o Ho; simpl; [reflexivity|].
  rewrite IH by done. by apply deliver_lookup_function.
Qed.

Lemma sole_resolvers_deliver hp c p r j :
  sole_resolvers hp p r j → sole_resolvers (deliver hp c) p r j.
Proof.
  intros (Hr & Hj & Hsole). repeat split.
  - by apply deliver_lookup_function.
  - by apply deliver_lookup_function.
  - intros H. apply deliver_lookup_function in H; [|done]. by apply Hsole.
  - intros H. apply deliver_lookup_function in H; [|done]. by apply Hsole.
Qed.

Lemma promise_state_deliver hp c p r j :
  sole_resolvers hp p r j →
  promise_state (deliver hp c) p
  = match promise_state hp p with
    | Some Pending => Some (default Pending (first_report (VRef r) (VRef j) [c]))
    | x => x
    end.
Proof.
  intros (Hr & Hj & Hsole). unfold deliver. simpl.
  assert (Hrj : r ≠ j) by (intros ->; congruence).
  destruct c.1 as [| | | | | |l] eqn:Ec;
    try (repeat case_decide; try done; by destruct (promise_state hp p) as [[]|]).
  destruct (decide (l = r)) as [->|Hlr].
  { rewrite Hr, promise_state_settle. rewrite decide_True by done.
    rewrite decide_True by done. done. }
  rewrite (decide_False (P := VRef l = VRef r)) by congruence.
  destruct (decide (l = j)) as [->|Hlj].
  { rewrite Hj, promise_state_settle. rewrite decide_True by done.
    rewrite decide_True by done. done. }
  rewrite (decide_False (P := VRef l = VRef j)) by congruence. simpl.
  destruct (hp !! l) as [[| | |p'|p'|]|] eqn:El;
    try by destruct (promise_state hp p) as [[]|].
  - rewrite promise_state_settle. destruct (promise_state hp p) as [[]|]; try done.
    rewrite decide_False; [done|]. intros <-. by apply Hlr, Hsole.
  - rewrite promise_state_settle. destruct (promise_state hp p) as [[]|]; try done.
    rewrite decide_False; [done|]. intros <-. by apply Hlj, Hsole.
Qed.

Lemma promise_state_deliver_all cs : ∀ hp p r j,
  sole_resolvers hp p r j →
  promise_state (foldl deliver hp cs) p
  = match promise_state hp p with
    | Some Pending => Some (default Pending (first_report (VRef r) (VRef j) cs))
    | x => x
    end.
Proof.
  induction cs as [|c cs IH]; intros hp p r j Hsole; simpl.
  - by destruct (promise_state hp p) as [[]|].
  - rewrite (IH _ p r j) by (by apply sole_resolvers_deliver).
    rewrite (promise_state_deliver _ _ _ r j) by done. simpl.
    destruct (promise_state hp p) as [[]|]; try done.
    repeat case_decide; done.
Qed.

Lemma sole_resolvers_deliver_all cs : ∀ hp p r j,
  sole_resolvers hp p r j → sole_resolvers (foldl deliver hp cs) p r j.
Proof.
  induction cs as [|c cs IH]; intros hp p r j H; simpl; [done|].
  by apply IH, sole_resolvers_deliver.
Qed.

Lemma sole_resolvers_settle hp q s p r j :
  sole_resolvers hp p r j → sole_resolvers (settle q s hp) p r j.
Proof.
  intros (Hr & Hj & Hsole). repeat split.
  - by apply settle_lookup_function.
  - by apply settle_lookup_function.
  - intros H. apply settle_lookup_function in H; [|done]. by apply Hsole.
  - intros H. apply settle_lookup_function in H; [|done]. by apply Hsole.
Qed.

Lemma first_report_app success fail cs1 cs2 :
  first_report success fail (cs1 ++ cs2)
  = match first_report success fail cs1 with
    | Some s => Some s
    | None => first_report success fail cs2
    end.
Proof.
  induction cs1 as [|c cs1 IH]; simpl; [done|].
  repeat case_decide; done.
Qed.

(** Callbacks that are values of [hp] are not the resolving functions of a
    promise created later. *)
Lemma first_report_old hp r j cs :
  Forall (λ c, val_in hp c.1) cs → length hp ≤ r → length hp ≤ j →
  first_report (VRef r) (VRef j) cs = None.
Proof.
  intros Hcs Hr Hj. induction Hcs as [|c cs Hc _ IH]; simpl; [done|].
  rewrite !decide_False; [done| |]; intros E; rewrite E in Hc; simpl in Hc; lia.
Qed.

Lemma sole_resolvers_new hp news :
  heap_ok hp →
  news !! 1 = Some (OResolve (length hp)) → news !! 2 = Some (OReject (length hp)) →
  (∀ i p, news !! i = Some (OResolve p) → i = 1) →
  (∀ i p, news !! i = Some (OReject p) → i = 2) →
  sole_resolvers (hp ++ news) (length hp) (length hp + 1) (length hp + 2).
Proof.
  intros Hok H1 H2 Hr Hj. repeat split.
  - by rewrite lookup_app_plus.
  - by rewrite lookup_app_plus.
  - intros [H|[Hle H]]%lookup_app_Some.
    + assert (length hp < length hp) by (eapply Hok; eauto). lia.
    + apply Hr in H. lia.
  - intros [H|[Hle H]]%lookup_app_Some.
    + assert (length hp < length hp) by (eapply Hok; eauto). lia.
    + apply Hj in H. lia.
Qed.

Lemma sole_resolvers_structured hp options :
  heap_ok hp →
  sole_resolvers (structured_store hp options) (length hp) (length hp + 1) (length hp + 2).
Proof.
  intros Hok. apply sole_resolvers_new; try done.
  - intros [|[|[|[|[|[|]]]]]] p; simpl; intros [=]; done.
  - intros [|[|[|[|[|[|]]]]]] p; simpl; intros [=]; done.
Qed.

Lemma sole_resolvers_bare hp :
  heap_ok hp →
  sole_resolvers (bare_store hp) (length hp) (length hp + 1) (length hp + 2).
Proof.
  intros Hok. apply sole_resolvers_new; try done.
  - intros [|[|[|[|]]]] p; simpl; intros [=]; done.
  - intros [|[|[|[|]]]] p; simpl; intros [=]; done.
Qed.

(** The merged options object carries the promise's own resolving functions
    as [success] and [fail]. *)
Lemma structured_store_merged hp options :
  own_props (structured_store hp options) (VRef (length hp + 3))
  = <["fail" := VRef (length hp + 2)]>
      (<["success" := VRef (length hp + 1)]> (own_props hp options)).
Proof.
  unfold own_props at 1, structured_store. cbv zeta. by rewrite lookup_app_plus.
Qed.

Lemma structured_store_success hp options :
  field (structured_store hp options) (VRef (length hp + 3)) "success" = VRef (length hp + 1).
Proof.
  unfold field. rewrite structured_store_merged.
  rewrite lookup_insert_ne by done. by rewrite lookup_insert_eq.
Qed.

Lemma structured_store_fail hp options :
  field (structured_store hp options) (VRef (length hp + 3)) "fail" = VRef (length hp + 2).
Proof. unfold field. rewrite structured_store_merged. by rewrite lookup_insert_eq. Qed.

Lemma structured_store_other hp options k :
  k ≠ "success" → k ≠ "fail" →
  field (structured_store hp options) (VRef (length hp + 3)) k = field hp options k.
Proof.
  intros. unfold field. rewrite structured_store_merged.
  by rewrite !lookup_insert_ne.
Qed.

Section Settlement.

Variable ext : nat → list value → list object → behaviour.

(** The structured-options branch against a host function, in full: the
    result, the store, the log and the queue. *)
Lemma invoker_structured_host hl h args hp lg q :
  hp !! hl = Some (OFun h) →
  val_in hp (first_arg args) → is_function hp (first_arg args) = false →
  let p := length hp in
  let hp1 := structured_store hp (first_arg args) in
  let args' := VRef (p + 3) :: tl args in
  let b := ext h args' hp1 in
  let hp2 := foldl deliver hp1 (resolve_call hp1 args' <$> during b) in
  promisify_invoker ext (VRef hl) args (State hp lg q)
  = (Normal (VRef p),
     State (match outcome b with
            | Normal _ => hp2
            | Throw e => settle p (Rejected e) hp2
            end)
           (lg ++ [(h, args')])
           (q ++ (resolve_call hp1 args' <$> later b))).
Proof.
  intros Hh Hv Hf p hp1 args' b hp2.
  rewrite invoker_structured by done. fold p hp1 args'.
  assert (Hh1 : hp1 !! hl = Some (OFun h)).
  { unfold hp1, structured_store. cbv zeta.
    rewrite lookup_app_old; [done|]. by eapply lookup_lt_Some. }
  pose proof (call_host ext hl h args' (State hp1 lg q) Hh1) as Hcall.
  cbn [heap log queue] in Hcall. fold b hp2 in Hcall.
  destruct (outcome b) as [v|e] eqn:Eo.
  - erewrite bind_normal; [done|]. by apply try_catch_normal.
  - erewrite bind_normal; [done|].
    erewrite try_catch_thrown by exact Hcall.
    rewrite (call_reject _ _ p).
    + done.
    + cbn [heap]. apply deliver_all_lookup_function; [done|].
      unfold hp1, p, structured_store. cbv zeta. by rewrite lookup_app_plus.
Qed.

End Settlement.

Lemma first_report_settled success fail cs :
  first_report success fail cs ≠ Some Pending.
Proof. induction cs as [|c cs IH]; simpl; [done|]. repeat case_decide; done. Qed.

Lemma promise_state_structured hp options :
  promise_state (structured_store hp options) (length hp) = Some Pending.
Proof.
  unfold promise_state, structured_store. cbv zeta.
  by rewrite lookup_app_length.
Qed.

Lemma promise_state_bare hp :
  promise_state (bare_store hp) (length hp) = Some Pending.
Proof.
  unfold promise_state, bare_store. cbv zeta.
  by rewrite lookup_app_length.
Qed.

Section Verdict.

Variable ext : nat → list value → list object → behaviour.

(** Once the queued callbacks have run, the promise an invoker returned is
    in the state the host's run dictates.  [g] stands for what the caller
    does to the store in between, as long as it keeps clear of that
    promise. *)
Lemma structured_settlement_after (g : list object → list object) hl h args st :
  wf st → heap st !! hl = Some (OFun h) →
  val_in (heap st) (first_arg args) → is_function (heap st) (first_arg args) = false →
  let p := length (heap st) in
  let hp1 := structured_store (heap st) (first_arg args) in
  let args' := VRef (p + 3) :: tl args in
  let st' := (promisify_invoker ext (VRef hl) args st).2 in
  (∀ X, sole_resolvers X p (p + 1) (p + 2) → sole_resolvers (g X) p (p + 1) (p + 2)) →
  (∀ X, promise_state (g X) p = promise_state X p) →
  promise_state (foldl deliver (g (heap st')) (queue st')) p
  = Some (default Pending
            (verdict (VRef (p + 1)) (VRef (p + 2)) hp1 args' (ext h args' hp1))).
Proof.
  intros [Hok Hq] Hh Hv Hf p hp1 args' st' Hg1 Hg2. destruct st as [hp lg q].
  unfold queue_ok in Hq. cbn [heap queue] in *.
  unfold st'. rewrite (invoker_structured_host ext hl h) by done. fold p hp1 args'.
  set (b := ext h args' hp1). cbn [snd heap queue].
  pose proof (sole_resolvers_structured hp (first_arg args) Hok) as Hsole.
  fold p hp1 in Hsole.
  set (hp2 := foldl deliver hp1 (resolve_call hp1 args' <$> during b)).
  assert (Hsole2 : sole_resolvers hp2 p (p + 1) (p + 2))
    by (by apply sole_resolvers_deliver_all).
  assert (Hst2 : promise_state hp2 p
                 = Some (default Pending (first_report (VRef (p + 1)) (VRef (p + 2))
                                            (resolve_call hp1 args' <$> during b)))).
  { unfold hp2. rewrite (promise_state_deliver_all _ _ _ (p + 1) (p + 2)) by done.
    unfold hp1, p. by rewrite promise_state_structured. }
  rewrite foldl_app.
  rewrite (promise_state_deliver_all _ _ _ (p + 1) (p + 2));
    [|apply sole_resolvers_deliver_all, Hg1; destruct (outcome b);
      [done | by apply sole_resolvers_settle]].
  rewrite (promise_state_deliver_all _ _ _ (p + 1) (p + 2));
    [|apply Hg1; destruct (outcome b); [done | by apply sole_resolvers_settle]].
  rewrite (first_report_old hp) by (done || unfold p; lia).
  rewrite Hg2.
  unfold verdict. fold b.
  pose proof (first_report_settled (VRef (p + 1)) (VRef (p + 2))
                (resolve_call hp1 args' <$> during b)) as Hns.
  pose proof (first_report_settled (VRef (p + 1)) (VRef (p + 2))
                (resolve_call hp1 args' <$> later b)) as Hns'.
  destruct (outcome b) as [v|e].
  - rewrite Hst2.
    destruct (first_report _ _ (_ <$> during b)) as [[]|]; try done.
  - rewrite promise_state_settle, Hst2.
    destruct (first_report _ _ (_ <$> during b)) as [[]|]; try done.
    simpl. by rewrite decide_True.
Qed.

Lemma structured_settlement hl h args st :
  wf st → heap st !! hl = Some (OFun h) →
  val_in (heap st) (first_arg args) → is_function (heap st) (first_arg args) = false →
  let p := length (heap st) in
  let hp1 := structured_store (heap st) (first_arg args) in
  let args' := VRef (p + 3) :: tl args in
  promise_state (heap (drain (promisify_invoker ext (VRef hl) args st).2)) p
  = Some (default Pending
            (verdict (VRef (p + 1)) (VRef (p + 2)) hp1 args' (ext h args' hp1))).
Proof.
  intros Hwf Hh Hv Hf.
  by apply (structured_settlement_after (λ X, X) hl h args st).
Qed.

End Verdict.

(** ** [setOption] and the [async] wrappers *)

Lemma truthy_not_nullish v : truthy v = true → nullish v = false.
Proof. by destruct v. Qed.

Lemma string_eqb_empty s : String.eqb s "" = true → s = "".
Proof. by destruct s. Qed.

Lemma own_props_falsy hp v : truthy v = false → own_props hp v = ∅.
Proof.
  destruct v; simpl; try done.
  intros H%negb_false_iff%string_eqb_empty. by subst.
Qed.

Lemma is_function_falsy hp v : truthy v = false → is_function hp v = false.
Proof. by destruct v. Qed.

Lemma val_in_falsy hp v : truthy v = false → val_in hp v.
Proof. by destruct v. Qed.

Lemma get_prop_run v k st :
  nullish v = false → get_prop v k st = (Normal (field (heap st) v k), st).
Proof. intros H. unfold get_prop. by rewrite H. Qed.

Lemma get_prop_nullish v k hp lg q :
  nullish v = true →
  get_prop v k (State hp lg q)
  = (Throw (VRef (length hp)),
     State (hp ++ [OError "TypeError" "Cannot read properties of undefined"]) lg q).
Proof. intros H. unfold get_prop. by rewrite H. Qed.

Section SetOption.

Variable ext : nat → list value → list object → behaviour.

(** An invoker treats falsy options exactly as it treats no options. *)
Lemma invoker_falsy_options api v st :
  truthy v = false →
  promisify_invoker ext api [v] st = promisify_invoker ext api [] st.
Proof.
  intros Hv. destruct st as [hp lg q].
  rewrite !invoker_structured;
    try (by apply is_function_falsy); try (by apply val_in_falsy).
  unfold structured_store. cbn [first_arg hd tl].
  by rewrite !own_props_falsy.
Qed.

(** With a capability object present, [setOption] is the invoker of the
    named field applied to the options. *)
Lemma setOption_present this name options st :
  truthy (wx this) = true →
  setOption ext this name options st
  = promisify_invoker ext (field (heap st) (wx this) name) [options] st.
Proof.
  intros Hwx. unfold setOption, promisify.
  rewrite Hwx. cbn [negb].
  pose proof (get_prop_run (wx this) name st (truthy_not_nullish _ Hwx)) as Hget.
  destruct (truthy options) eqn:Ho.
  - by rewrite (bind_normal _ _ _ _ _ Hget), bind_ret.
  - rewrite (bind_normal _ _ _ _ _ Hget), bind_ret.
    symmetry. by apply invoker_falsy_options.
Qed.

(** Without one, it throws before doing anything else. *)
Lemma setOption_absent this name options hp lg q :
  truthy (wx this) = false →
  setOption ext this name options (State hp lg q)
  = (Throw (VRef (length hp)), State (hp ++ [OError "Error" "wx对象不存在"]) lg q).
Proof. intros Hwx. unfold setOption. by rewrite Hwx. Qed.

Lemma promisify_absent this api hp lg q :
  truthy (wx this) = false →
  promisify ext this api (State hp lg q)
  = (Throw (VRef (length hp)), State (hp ++ [OError "Error" "wx对象不存在"]) lg q).
Proof. intros Hwx. unfold promisify. by rewrite Hwx. Qed.

Lemma promisify_present this api st :
  truthy (wx this) = true →
  promisify ext this api st = (Normal (promisify_invoker ext api), st).
Proof. intros Hwx. unfold promisify. by rewrite Hwx. Qed.

End SetOption.

(** An [async] method allocates its promise, runs its body, and settles the
    promise with the body's completion. *)
Lemma async_run body hp lg q :
  async body (State hp lg q)
  = (Normal (VRef (length hp)),
     with_heap
       (settle (length hp)
          match (body (State (hp ++ [OPromise Pending]) lg q)).1 with
          | Normal v => Resolved v
          | Throw e => Rejected e
          end)
       (body (State (hp ++ [OPromise Pending]) lg q)).2).
Proof.
  unfold async. rewrite bind_alloc. unfold bind, try_catch.
  by destruct (body _) as [[v|e] st2].
Qed.

(** ** Promises nobody can settle *)

Lemma promise_state_deliver_none hp c p :
  no_resolvers hp p → promise_state (deliver hp c) p = promise_state hp p.
Proof.
  intros Hno. unfold deliver. destruct c.1 as [| | | | | |l]; try done.
  destruct (hp !! l) as [[| | |p'|p'|]|] eqn:El; try done.
  - rewrite promise_state_settle. destruct (promise_state hp p) as [[]|]; try done.
    rewrite decide_False; [done|]. intros <-. by destruct (Hno l).
  - rewrite promise_state_settle. destruct (promise_state hp p) as [[]|]; try done.
    rewrite decide_False; [done|]. intros <-. by destruct (Hno l).
Qed.

Lemma no_resolvers_deliver hp c p : no_resolvers hp p → no_resolvers (deliver hp c) p.
Proof.
  intros Hno l. destruct (Hno l) as [H1 H2].
  split; intros H; apply deliver_lookup_function in H; done.
Qed.

Lemma promise_state_deliver_all_none cs : ∀ hp p,
  no_resolvers hp p → promise_state (foldl deliver hp cs) p = promise_state hp p.
Proof.
  induction cs as [|c cs IH]; intros hp p Hno; simpl; [done|].
  rewrite IH by (by apply no_resolvers_deliver).
  by apply promise_state_deliver_none.
Qed.

(** A settled promise stays as it is in every later store. *)
Lemma evolves_settled hp hp' p s :
  evolves hp hp' → promise_state hp p = Some s → s ≠ Pending →
  promise_state hp' p = Some s.
Proof.
  intros Hev Hp Hs. unfold promise_state in *.
  destruct (hp !! p) as [[| | | | |s0]|] eqn:E; try done.
  injection Hp as ->. specialize (Hev _ _ E).
  destruct s; [done| |]; by rewrite Hev.
Qed.

(** ** Well-formed stores stay well formed under allocation *)

Lemma own_props_val_in hp v k x :
  own_props hp v !! k = Some x → val_in hp v.
Proof.
  destruct v; simpl; try done.
  destruct (hp !! l) as [o|] eqn:E; [|done]. intros _. by eapply lookup_lt_Some.
Qed.

Lemma field_val_in hp v k l : field hp v k = VRef l → val_in hp v.
Proof.
  unfold field. destruct (own_props hp v !! k) eqn:E; [|done].
  intros _. by eapply own_props_val_in.
Qed.

Lemma host_operation_app hp news this name h :
  host_operation hp this name h → host_operation (hp ++ news) this name h.
Proof.
  intros (Hwx & hl & Hf & Hh). split; [done|]. exists hl. split.
  - unfold field in *. rewrite own_props_app; [done|]. by eapply field_val_in.
  - rewrite lookup_app_old; [done|]. by eapply lookup_lt_Some.
Qed.

Lemma heap_ok_app_promise hp s : heap_ok hp → heap_ok (hp ++ [OPromise s]).
Proof.
  intros Hok l p H. rewrite length_app. simpl.
  assert (Hl : hp !! l = Some (OResolve p) ∨ hp !! l = Some (OReject p)).
  { destruct H as [H|H]; apply lookup_app_Some in H as [H|[_ H]]; auto;
      destruct (l - length hp) as [|[|]]; simpl in H; done. }
  specialize (Hok l p Hl). lia.
Qed.

Lemma wf_alloc_promise hp lg q s :
  wf (State hp lg q) → wf (State (hp ++ [OPromise s]) lg q).
Proof.
  intros [Hok Hq]. split; cbn [heap queue] in *.
  - by apply heap_ok_app_promise.
  - unfold queue_ok in *. cbn [heap queue] in *.
    eapply Forall_impl; [exact Hq|]. intros c Hc. by apply val_in_app.
Qed.

Lemma no_resolvers_structured X options P :
  (∀ l q, X !! l = Some (OResolve q) ∨ X !! l = Some (OReject q) → q ≠ P) →
  P ≠ length X → no_resolvers (structured_store X options) P.
Proof.
  intros HX HP l. unfold structured_store. cbv zeta.
  split; intros [H|[_ H]]%lookup_app_Some.
  - eapply HX; eauto.
  - destruct (l - length X) as [|[|[|[|[|]]]]]; simpl in H; try done. congruence.
  - eapply HX; eauto.
  - destruct (l - length X) as [|[|[|[|[|]]]]]; simpl in H; try done. congruence.
Qed.

Lemma no_resolvers_settle hp q s p : no_resolvers hp p → no_resolvers (settle q s hp) p.
Proof.
  intros Hno l. destruct (Hno l) as [H1 H2].
  split; intros H; apply settle_lookup_function in H; done.
Qed.

Section Reports.

Variable ext : nat → list value → list object → behaviour.

(** What the host reports is what the promise of [setOption] ends up as. *)
Lemma setOption_settles this name options h st s :
  wf st → host_operation (heap st) this name h →
  val_in (heap st) options → is_function (heap st) options = false →
  reports (ext h) s →
  (setOption ext this name options st).1 = Normal (VRef (length (heap st))) ∧
  promise_state (heap (drain (setOption ext this name options st).2)) (length (heap st))
  = Some s.
Proof.
  intros Hwf (Hwx & hl & Hfield & Hh) Hv Hf Hrep.
  rewrite setOption_present, Hfield by done. split.
  - destruct st as [hp lg q]. cbn [heap] in *.
    by rewrite (invoker_structured_host ext hl h).
  - rewrite (structured_settlement ext hl h) by done. cbn [first_arg hd tl].
    specialize (Hrep (VRef (length (heap st) + 3) :: [])
                     (structured_store (heap st) options)).
    cbn [first_arg hd] in Hrep.
    rewrite structured_store_success, structured_store_fail in Hrep.
    rewrite Hrep; [done|]. intros [=]. lia.
Qed.

(** The same through a pass-through method: its own promise is resolved
    with the promise of [setOption], which ends up as the host reports. *)
Lemma passthrough_settles this name options h st s :
  wf st → host_operation (heap st) this name h →
  val_in (heap st) options → is_function (heap st) options = false →
  reports (ext h) s →
  let P := length (heap st) in
  let hp' := heap (drain (passthrough ext this name options st).2) in
  (passthrough ext this name options st).1 = Normal (VRef P) ∧
  promise_state hp' P = Some (Resolved (VRef (P + 1))) ∧
  promise_state hp' (P + 1) = Some s.
Proof.
  intros Hwf Hop Hv Hf Hrep P hp'. subst P hp'. destruct st as [hp lg q].
  cbn [heap] in *. unfold passthrough. rewrite async_run.
  set (st1 := State (hp ++ [OPromise Pending]) lg q).
  assert (Hwf1 : wf st1) by (by apply wf_alloc_promise).
  assert (Hop1 : host_operation (heap st1) this name h) by (by apply host_operation_app).
  assert (Hv1 : val_in (heap st1) options) by (by apply val_in_app).
  assert (Hf1 : is_function (heap st1) options = false)
    by (cbn [st1 heap]; by rewrite is_function_app).
  assert (Hlen : length (heap st1) = length hp + 1) by (cbn [st1 heap]; by rewrite length_app).
  destruct Hop1 as (Hwx & hl & Hfield & Hh).
  rewrite setOption_present, Hfield by done.
  pose proof (structured_settlement_after ext
                (settle (length hp) (Resolved (VRef (length hp + 1)))) hl h [options] st1
                Hwf1 Hh Hv1 Hf1) as Hp.
  cbv zeta in Hp. rewrite Hlen in Hp.
  pose proof (invoker_structured_host ext hl h [options] (hp ++ [OPromise Pending])
                lg q Hh Hv1 Hf1) as Hrun.
  cbv zeta in Hrun. cbn [first_arg hd tl] in Hrun, Hp.
  specialize (Hrep (VRef (length (heap st1) + 3) :: [])
                   (structured_store (heap st1) options)).
  cbn [first_arg hd] in Hrep.
  rewrite structured_store_success, structured_store_fail, Hlen in Hrep.
  subst st1. cbn [heap] in *. rewrite Hlen in Hrun.
  split; [done|]. rewrite Hrun. cbn [fst snd drain with_heap heap queue].
  rewrite Hrun in Hp. cbn [fst snd heap queue] in Hp.
  split.
  - (* the method's own promise *)
    eapply evolves_settled; [apply evolves_deliver_all| |done].
    rewrite promise_state_settle.
    set (b := ext h _ _).
    assert (Hno : no_resolvers (structured_store (hp ++ [OPromise Pending]) options) (length hp)).
    { apply no_resolvers_structured.
      - intros l p0 H. destruct Hwf as [Hok _]. cbn [heap] in Hok.
        assert (Hl : hp !! l = Some (OResolve p0) ∨ hp !! l = Some (OReject p0)).
        { destruct H as [H|H]; apply lookup_app_Some in H as [H|[_ H]]; auto;
            destruct (l - length hp) as [|[|]]; simpl in H; done. }
        specialize (Hok l p0 Hl). lia.
      - rewrite length_app. simpl. lia. }
    assert (Hpend : promise_state (structured_store (hp ++ [OPromise Pending]) options) (length hp)
                    = Some Pending).
    { unfold promise_state, structured_store. cbv zeta.
      rewrite <- app_assoc. by rewrite lookup_app_length. }
    destruct (outcome b).
    + rewrite promise_state_deliver_all_none, Hpend by done.
      by rewrite decide_True.
    + rewrite promise_state_settle, promise_state_deliver_all_none, Hpend by done.
      rewrite decide_False by lia. by rewrite decide_True.
  - (* the invoker's promise *)
    rewrite Hp.
    + rewrite Hrep; [done|]. intros [=]. lia.
    + intros X HX. by apply sole_resolvers_settle.
    + intros X. rewrite promise_state_settle.
      destruct (promise_state X (length hp + 1)) as [[]|]; try done.
      by rewrite decide_False by lia.
Qed.

End Reports.

(** ** The example store is well formed *)

Lemma demo_store_wf : wf demo_store.
Proof.
  split.
  - intros l p [H|H];
      do 9 (destruct l as [|l]; [simpl in H; discriminate|]); simpl in H; discriminate.
  - constructor.
Defined.

Lemma demo_login_reports : reports (demo_ext 0) (Resolved (VRef 5)).
Proof.
  intros args hp _. unfold verdict. simpl. destruct args; simpl; by rewrite decide_True.
Defined.

Lemma demo_request_reports : reports (demo_ext 1) (Rejected (VRef 6)).
Proof.
  intros args hp Hne. unfold verdict. simpl.
  destruct args; simpl in *; (rewrite decide_False by done); by rewrite decide_True.
Defined.

(** ** The scenarios of the specification, run *)

(** [{ login: (o) => o.success({errMsg:'login:ok', code:'abc'}) }]:
    [adapter.login({...})] resolves to that object. *)
Example login_scenario :
  let run := login demo_ext demo_adapter (VRef 4) demo_store in
  run.1 = Normal (VRef 9) ∧
  promise_state (heap (drain run.2)) 9 = Some (Resolved (VRef 10)) ∧
  promise_state (heap (drain run.2)) 10 = Some (Resolved (VRef 5)) ∧
  field (heap (drain run.2)) (VRef 5) "errMsg" = VStr "login:ok" ∧
  field (heap (drain run.2)) (VRef 5) "code" = VStr "abc".
Proof. vm_compute. repeat split. Qed.

(** [{ request: (o) => o.fail({errMsg:'request:fail timeout'}) }]:
    [adapter.get('/x')] rejects with that object, once the host has called
    back. *)
Example get_scenario :
  let run := get demo_ext demo_adapter (VStr "/x") VUndef VUndef demo_store in
  run.1 = Normal (VRef 9) ∧
  promise_state (heap run.2) 13 = Some Pending ∧
  promise_state (heap (drain run.2)) 9 = Some (Resolved (VRef 13)) ∧
  promise_state (heap (drain run.2)) 13 = Some (Rejected (VRef 6)) ∧
  field (heap (drain run.2)) (VRef 6) "errMsg" = VStr "request:fail timeout".
Proof. vm_compute. repeat split. Qed.

(** With no capability object, [setOption] stops at its own guard, while
    the bare composition [promisify(wx[name])(options)] already fails on
    reading [wx[name]]: both throw, with different errors. *)
Example guard_precedes_lookup :
  let direct := setOption demo_ext (constructor VNull) "login" (VRef 4) demo_store in
  let composed := invokeByName_composed demo_ext (constructor VNull) "login" (VRef 4) demo_store in
  direct.1 = Throw (VRef 9) ∧ composed.1 = Throw (VRef 9) ∧
  heap direct.2 !! 9 = Some (OError "Error" "wx对象不存在") ∧
  heap composed.2 !! 9 = Some (OError "TypeError" "Cannot read properties of undefined").
Proof. vm_compute. repeat split. Qed.

(** * The claims *)

(** C1.  For an operation [name] that the capability object offers as a host
    function and options that are not a function, the promise returned by
    [setOption] (which is the invoker of [promisify] applied to the options)
    ends up resolved with exactly the value [V] the host passes to the
    injected [success] callback, and rejected with exactly the value [E] it
    passes to the injected [fail] callback.  The promise of the
    corresponding pass-through method is resolved with that promise, so it
    settles the same way. *)
Theorem promise_settles_with_host_value ext this name options h st :
  wf st → host_operation (heap st) this name h →
  val_in (heap st) options → is_function (heap st) options = false →
  let p := length (heap st) in
  let direct := setOption ext this name options st in
  let method := passthrough ext this name options st in
  direct.1 = Normal (VRef p) ∧ method.1 = Normal (VRef p) ∧
  (∀ V, reports (ext h) (Resolved V) →
     promise_state (heap (drain direct.2)) p = Some (Resolved V) ∧
     promise_state (heap (drain method.2)) p = Some (Resolved (VRef (p + 1))) ∧
     promise_state (heap (drain method.2)) (p + 1) = Some (Resolved V)) ∧
  (∀ E, reports (ext h) (Rejected E) →
     promise_state (heap (drain direct.2)) p = Some (Rejected E) ∧
     promise_state (heap (drain method.2)) p = Some (Resolved (VRef (p + 1))) ∧
     promise_state (heap (drain method.2)) (p + 1) = Some (Rejected E)).
Proof.
  intros Hwf Hop Hv Hf p direct method.
  assert (Hd : ∀ s, reports (ext h) s →
             direct.1 = Normal (VRef p) ∧
             promise_state (heap (drain direct.2)) p = Some s)
    by (intros s Hs; by apply (setOption_settles ext this name options h st s)).
  assert (Hm : ∀ s, reports (ext h) s →
             method.1 = Normal (VRef p) ∧
             promise_state (heap (drain method.2)) p = Some (Resolved (VRef (p + 1))) ∧
             promise_state (heap (drain method.2)) (p + 1) = Some s)
    by (intros s Hs; by apply (passthrough_settles ext this name options h st s)).
  repeat split.
  - destruct Hop as (Hwx & hl & Hfield & Hh). unfold direct.
    rewrite setOption_present, Hfield by done.
    destruct st as [hp lg q]. cbn [heap] in *.
    by rewrite (invoker_structured_host ext hl h).
  - unfold method, passthrough. destruct st as [hp lg q]. by rewrite async_run.
  - by apply Hd.
  - by apply (Hm (Resolved V)).
  - by apply (Hm (Resolved V)).
  - by apply Hd.
  - by apply (Hm (Rejected E)).
  - by apply (Hm (Rejected E)).
Qed.

Lemma promise_settles_with_host_value_witness :
  promise_state
    (heap (drain (setOption demo_ext demo_adapter "login" (VRef 4) demo_store).2)) 9
  = Some (Resolved (VRef 5)) ∧
  promise_state
    (heap (drain (passthrough demo_ext demo_adapter "request" (VRef 4) demo_store).2)) 10
  = Some (Rejected (VRef 6)).
Proof.
  split.
  - apply (promise_settles_with_host_value demo_ext demo_adapter "login" (VRef 4) 0 demo_store).
    + exact demo_store_wf.
    + split; [reflexivity|]. exists 0. split; reflexivity.
    + simpl. lia.
    + reflexivity.
    + exact demo_login_reports.
  - apply (promise_settles_with_host_value demo_ext demo_adapter "request" (VRef 4) 1 demo_store).
    + exact demo_store_wf.
    + split; [reflexivity|]. exists 1. split; reflexivity.
    + simpl. lia.
    + reflexivity.
    + exact demo_request_reports.
Defined.

(** ** Calling what is not a function *)

Lemma settle_new hp s rest :
  settle (length hp) s (hp ++ OPromise Pending :: rest) = hp ++ OPromise s :: rest.
Proof.
  unfold settle. rewrite lookup_app_length. simpl.
  rewrite <- (Nat.add_0_r (length hp)) at 1. by rewrite insert_app_plus.
Qed.

Section NotCallable.

Variable ext : nat → list value → list object → behaviour.

(** When [api] is not a function, the call inside the executor throws a
    [TypeError]; the promise constructor catches it and rejects the promise
    with it.  The invoker itself returns normally. *)
Lemma invoker_not_callable api args hp lg q :
  is_function hp api = false → val_in hp api → val_in hp (first_arg args) →
  let p := length hp in
  promisify_invoker ext api args (State hp lg q)
  = (Normal (VRef p),
     if is_function hp (first_arg args)
     then State (hp ++ [OPromise (Rejected (VRef (p + 3))); OResolve p; OReject p;
                        OError "TypeError" "api is not a function"]) lg q
     else State (hp ++ [OPromise (Rejected (VRef (p + 5))); OResolve p; OReject p;
                        OPlain (<["fail" := VRef (p + 2)]>
                                  (<["success" := VRef (p + 1)]>
                                     (own_props hp (first_arg args))));
                        OPlain (<["fail" := VRef (p + 2)]> {["success" := VRef (p + 1)]});
                        OError "TypeError" "api is not a function"]) lg q).
Proof.
  intros Hapi Hvapi Hv p. subst p.
  destruct (is_function hp (first_arg args)) eqn:Hf.
  - rewrite invoker_bare by done. unfold bare_store. cbv zeta.
    erewrite bind_normal; [reflexivity|].
    erewrite try_catch_thrown.
    2:{ erewrite bind_thrown; [reflexivity|].
        rewrite call_not_function by (cbn [heap]; by rewrite is_function_app).
        rewrite throw_new_run, <- app_assoc. cbn [app length].
        rewrite length_app. cbn [length]. reflexivity. }
    erewrite (call_reject _ _ (length hp)) by (cbn [heap]; by rewrite lookup_app_plus).
    unfold with_heap. cbn [heap log queue first_arg hd]. by rewrite settle_new.
  - rewrite invoker_structured by done. unfold structured_store. cbv zeta.
    erewrite bind_normal; [reflexivity|].
    erewrite try_catch_thrown.
    2:{ rewrite call_not_function by (cbn [heap]; by rewrite is_function_app).
        rewrite throw_new_run, <- app_assoc. cbn [app length].
        rewrite length_app. cbn [length]. reflexivity. }
    erewrite (call_reject _ _ (length hp)) by (cbn [heap]; by rewrite lookup_app_plus).
    unfold with_heap. cbn [heap log queue first_arg hd]. by rewrite settle_new.
Qed.

End NotCallable.

(** C2, as the code has it.  When the capability object is present and its
    field [name] is missing or not a function, [setOption] does not throw:
    it returns a new promise, and the [TypeError] raised by the attempted
    call inside the promise executor is delivered as that promise's
    rejection.  No host function is called. *)
Theorem missing_operation_rejects ext this name options st :
  truthy (wx this) = true →
  is_function (heap st) (field (heap st) (wx this) name) = false →
  val_in (heap st) (field (heap st) (wx this) name) →
  val_in (heap st) options →
  let run := setOption ext this name options st in
  let p := length (heap st) in
  run.1 = Normal (VRef p) ∧
  promise_state (heap st) p = None ∧
  log run.2 = log st ∧
  ∃ e, promise_state (heap run.2) p = Some (Rejected (VRef e)) ∧
       heap run.2 !! e = Some (OError "TypeError" "api is not a function").
Proof.
  intros Hwx Hapi Hvapi Hv run p. subst run p.
  rewrite setOption_present by done. destruct st as [hp lg q]. cbn [heap log] in *.
  rewrite invoker_not_callable by done. cbn [fst snd first_arg hd].
  split; [done|]. split.
  { unfold promise_state. by rewrite lookup_ge_None_2. }
  destruct (is_function hp options).
  - split; [done|]. exists (length hp + 3). cbn [heap]. split.
    + unfold promise_state. by rewrite lookup_app_length.
    + by rewrite lookup_app_plus.
  - split; [done|]. exists (length hp + 5). cbn [heap]. split.
    + unfold promise_state. by rewrite lookup_app_length.
    + by rewrite lookup_app_plus.
Qed.

Lemma missing_operation_rejects_witness :
  ∃ e, promise_state
         (heap (setOption demo_ext demo_adapter "doesNotExist" (VRef 7) demo_store).2) 9
       = Some (Rejected (VRef e)) ∧
       heap (setOption demo_ext demo_adapter "doesNotExist" (VRef 7) demo_store).2 !! e
       = Some (OError "TypeError" "api is not a function").
Proof.
  apply (missing_operation_rejects demo_ext demo_adapter "doesNotExist" (VRef 7) demo_store).
  - reflexivity.
  - reflexivity.
  - exact I.
  - simpl. lia.
Defined.

(** C2, as stated, fails: against a capability object without the key
    [doesNotExist], [setOption('doesNotExist', {})] completes normally and
    hands back a promise that is rejected with the [TypeError]; nothing is
    thrown to the caller. *)
Lemma missing_operation_does_not_throw :
  let run := setOption demo_ext demo_adapter "doesNotExist" (VRef 7) demo_store in
  truthy (wx demo_adapter) = true ∧
  own_props (heap demo_store) (wx demo_adapter) !! "doesNotExist" = None ∧
  heap demo_store !! 7 = Some (OPlain ∅) ∧
  (∀ e, run.1 ≠ Throw e) ∧
  run.1 = Normal (VRef 9) ∧
  promise_state (heap run.2) 9 = Some (Rejected (VRef 14)) ∧
  heap run.2 !! 14 = Some (OError "TypeError" "api is not a function").
Proof. vm_compute. repeat split; try reflexivity. intros e; discriminate. Qed.

(** C3.  With the held capability object absent ([null] or [undefined]),
    [promisify] and [setOption] throw the error [wx对象不存在] to the caller,
    for every argument.  All that has happened to the store is that the
    error object was created: no promise exists that did not exist before,
    no host function was called, and so the error cannot have been
    delivered as a rejection. *)
Theorem absent_wx_throws ext this api name options st :
  nullish (wx this) = true →
  let e := length (heap st) in
  promisify ext this api st = (Throw (VRef e), absent_store st) ∧
  setOption ext this name options st = (Throw (VRef e), absent_store st) ∧
  heap (absent_store st) !! e = Some (OError "Error" "wx对象不存在") ∧
  (∀ l s, heap (absent_store st) !! l = Some (OPromise s) →
          heap st !! l = Some (OPromise s)) ∧
  log (absent_store st) = log st.
Proof.
  intros Hwx e. subst e.
  assert (Hf : truthy (wx this) = false) by (by destruct (wx this)).
  destruct st as [hp lg q]. unfold absent_store. cbn [heap log queue].
  repeat split.
  - by apply promisify_absent.
  - by apply setOption_absent.
  - by rewrite lookup_app_length.
  - intros l s [H|[_ H]]%lookup_app_Some; [done|].
    destruct (l - length hp) as [|[|]]; simpl in H; done.
Qed.

Lemma absent_wx_throws_witness :
  setOption demo_ext (constructor VNull) "login" (VRef 4) demo_store
  = (Throw (VRef 9), absent_store demo_store) ∧
  promisify demo_ext (constructor VUndef) (VRef 0) demo_store
  = (Throw (VRef 9), absent_store demo_store).
Proof.
  split.
  - apply (absent_wx_throws demo_ext (constructor VNull) (VRef 0) "login" (VRef 4) demo_store).
    reflexivity.
  - apply (absent_wx_throws demo_ext (constructor VUndef) (VRef 0) "login" (VRef 4) demo_store).
    reflexivity.
Defined.

(** C10.  Presence of the capability object is tested by truthiness:
    [false], [0], [''], [NaN], [null] and [undefined] are all falsy, and an
    adapter constructed with any falsy value throws the error [wx对象不存在]
    from [promisify] and from [setOption], whatever the arguments. *)
Theorem falsy_wx_throws ext w api name options st :
  truthy w = false →
  Forall (λ v, truthy v = false) [VBool false; VNum 0; VStr ""; VNaN; VNull; VUndef] ∧
  promisify ext (constructor w) api st = (Throw (VRef (length (heap st))), absent_store st) ∧
  setOption ext (constructor w) name options st
  = (Throw (VRef (length (heap st))), absent_store st) ∧
  heap (absent_store st) !! length (heap st) = Some (OError "Error" "wx对象不存在").
Proof.
  intros Hw. destruct st as [hp lg q]. unfold absent_store. cbn [heap log queue].
  split; [by repeat constructor|]. repeat split.
  - by apply promisify_absent.
  - by apply setOption_absent.
  - by rewrite lookup_app_length.
Qed.

Lemma falsy_wx_throws_witness :
  setOption demo_ext (constructor (VBool false)) "login" (VRef 4) demo_store
  = (Throw (VRef 9), absent_store demo_store) ∧
  setOption demo_ext (constructor (VNum 0)) "login" (VRef 4) demo_store
  = (Throw (VRef 9), absent_store demo_store) ∧
  setOption demo_ext (constructor (VStr "")) "login" (VRef 4) demo_store
  = (Throw (VRef 9), absent_store demo_store) ∧
  promisify demo_ext (constructor VNaN) (VRef 0) demo_store
  = (Throw (VRef 9), absent_store demo_store).
Proof.
  split; [|split; [|split]].
  - apply (falsy_wx_throws demo_ext (VBool false) (VRef 0) "login" (VRef 4) demo_store).
    reflexivity.
  - apply (falsy_wx_throws demo_ext (VNum 0) (VRef 0) "login" (VRef 4) demo_store).
    reflexivity.
  - apply (falsy_wx_throws demo_ext (VStr "") (VRef 0) "login" (VRef 4) demo_store).
    reflexivity.
  - apply (falsy_wx_throws demo_ext VNaN (VRef 0) "login" (VRef 4) demo_store).
    reflexivity.
Defined.

(** Through an [async] pass-through method the same error does not reach
    the caller as an exception: the method returns its promise, rejected
    with the error. *)
Lemma passthrough_absent_wx ext this name options st :
  truthy (wx this) = false →
  let run := passthrough ext this name options st in
  let p := length (heap st) in
  run.1 = Normal (VRef p) ∧
  promise_state (heap run.2) p = Some (Rejected (VRef (p + 1))) ∧
  heap run.2 !! (p + 1) = Some (OError "Error" "wx对象不存在").
Proof.
  intros Hwx run p. subst run p. destruct st as [hp lg q]. cbn [heap].
  unfold passthrough. rewrite async_run, setOption_absent by done.
  cbn [fst snd with_heap heap]. rewrite <- app_assoc. cbn [app].
  rewrite settle_new. repeat split.
  - unfold promise_state. rewrite lookup_app_length. simpl.
    by rewrite length_app.
  - by rewrite lookup_app_plus.
Qed.

(** ** What the host operation receives *)

Section Received.

Variable ext : nat → list value → list object → behaviour.

(** After a structured invocation against a host function, everything
    that was in the store at the moment of the call and is not a promise is
    still there. *)
Lemma invoker_structured_keeps hl h args st l o :
  heap st !! hl = Some (OFun h) →
  val_in (heap st) (first_arg args) → is_function (heap st) (first_arg args) = false →
  (∀ s, o ≠ OPromise s) →
  structured_store (heap st) (first_arg args) !! l = Some o →
  heap (promisify_invoker ext (VRef hl) args st).2 !! l = Some o.
Proof.
  intros Hh Hv Hf Ho Hl. destruct st as [hp lg q]. cbn [heap] in *.
  rewrite (invoker_structured_host ext hl h) by done. cbn [snd heap].
  destruct (outcome _).
  - by apply deliver_all_lookup_function.
  - by apply settle_lookup_function, deliver_all_lookup_function.
Qed.

Lemma invoker_structured_log hl h args st :
  heap st !! hl = Some (OFun h) →
  val_in (heap st) (first_arg args) → is_function (heap st) (first_arg args) = false →
  (promisify_invoker ext (VRef hl) args st).1 = Normal (VRef (length (heap st))) ∧
  log (promisify_invoker ext (VRef hl) args st).2
  = log st ++ [(h, VRef (length (heap st) + 3) :: tl args)].
Proof.
  intros Hh Hv Hf. destruct st as [hp lg q]. cbn [heap] in *.
  by rewrite (invoker_structured_host ext hl h).
Qed.

End Received.

(** C4.  For options that are not a function, the invoker passes the host
    operation a new object [m]: it did not exist before the call, its
    [success] field is the [resolve] function of the returned promise, its
    [fail] field the [reject] function, and every other field is the
    caller's (a shallow copy: the field values themselves, with nothing
    when the options are absent).  A [success] or [fail] field of the
    caller is overridden. *)
Theorem invoker_passes_merged_copy ext this hl h args st :
  truthy (wx this) = true → heap st !! hl = Some (OFun h) →
  val_in (heap st) (first_arg args) → is_function (heap st) (first_arg args) = false →
  let p := length (heap st) in
  let m := p + 3 in
  let st' := (promisify_invoker ext (VRef hl) args st).2 in
  promisify ext this (VRef hl) st = (Normal (promisify_invoker ext (VRef hl)), st) ∧
  (promisify_invoker ext (VRef hl) args st).1 = Normal (VRef p) ∧
  log st' = log st ++ [(h, VRef m :: tl args)] ∧
  heap st !! m = None ∧
  heap st' !! (p + 1) = Some (OResolve p) ∧
  heap st' !! (p + 2) = Some (OReject p) ∧
  ∃ props, heap st' !! m = Some (OPlain props) ∧
    props !! "success" = Some (VRef (p + 1)) ∧
    props !! "fail" = Some (VRef (p + 2)) ∧
    (∀ k, k ≠ "success" → k ≠ "fail" →
          props !! k = own_props (heap st) (first_arg args) !! k) ∧
    (first_arg args = VUndef → ∀ k, k ≠ "success" → k ≠ "fail" → props !! k = None).
Proof.
  intros Hwx Hh Hv Hf p m st'. subst p m st'.
  destruct (invoker_structured_log ext hl h args st Hh Hv Hf) as [Hres Hlog].
  pose proof (λ l o, invoker_structured_keeps ext hl h args st l o Hh Hv Hf) as Hkeep.
  split; [by apply promisify_present|].
  split; [done|]. split; [done|].
  split; [apply lookup_ge_None_2; lia|].
  split; [apply Hkeep; [done|]; unfold structured_store; cbv zeta;
          by rewrite lookup_app_plus|].
  split; [apply Hkeep; [done|]; unfold structured_store; cbv zeta;
          by rewrite lookup_app_plus|].
  eexists. split.
  { apply Hkeep; [done|]. unfold structured_store. cbv zeta.
    by rewrite lookup_app_plus. }
  split; [by rewrite lookup_insert_ne, lookup_insert_eq|].
  split; [by rewrite lookup_insert_eq|].
  split.
  - intros k Hs Hfl. by rewrite !lookup_insert_ne.
  - intros Hu k Hs Hfl. rewrite !lookup_insert_ne by done. by rewrite Hu.
Qed.

Lemma invoker_passes_merged_copy_witness :
  ∃ props,
    heap (promisify_invoker demo_ext (VRef 0) [VRef 4; VNum 1] demo_store).2 !! 12
    = Some (OPlain props) ∧
    props !! "success" = Some (VRef 10) ∧
    props !! "fail" = Some (VRef 11) ∧
    (∀ k, k ≠ "success" → k ≠ "fail" →
          props !! k = own_props (heap demo_store) (VRef 4) !! k) ∧
    (VRef 4 = VUndef → ∀ k, k ≠ "success" → k ≠ "fail" → props !! k = None).
Proof.
  apply (invoker_passes_merged_copy demo_ext demo_adapter 0 0 [VRef 4; VNum 1] demo_store).
  - reflexivity.
  - reflexivity.
  - simpl. lia.
  - reflexivity.
Defined.

(** C6.  For options that are not a function and any extra arguments
    [params] given to the invoker after them, the host operation is called
    with the merged options object first and then exactly [params], in the
    same order. *)
Theorem invoker_forwards_extra_arguments ext hl h options params st :
  heap st !! hl = Some (OFun h) →
  val_in (heap st) options → is_function (heap st) options = false →
  let st' := (promisify_invoker ext (VRef hl) (options :: params) st).2 in
  let m := length (heap st) + 3 in
  log st' = log st ++ [(h, VRef m :: params)] ∧
  heap st' !! m
  = Some (OPlain (<["fail" := VRef (length (heap st) + 2)]>
                    (<["success" := VRef (length (heap st) + 1)]>
                       (own_props (heap st) options)))).
Proof.
  intros Hh Hv Hf st' m. subst st' m. split.
  - by apply (invoker_structured_log ext hl h (options :: params) st).
  - apply (invoker_structured_keeps ext hl h (options :: params) st); try done.
    unfold structured_store. cbv zeta. by rewrite lookup_app_plus.
Qed.

Lemma invoker_forwards_extra_arguments_witness :
  log (promisify_invoker demo_ext (VRef 0) [VRef 4; VNum 1; VStr "x"; VRef 7] demo_store).2
  = [(0, [VRef 12; VNum 1; VStr "x"; VRef 7])].
Proof.
  apply (invoker_forwards_extra_arguments demo_ext 0 0 (VRef 4)
           [VNum 1; VStr "x"; VRef 7] demo_store).
  - reflexivity.
  - simpl. lia.
  - reflexivity.
Defined.

(** ** The bare-callback branch *)

Lemma settle_length p s hp : length (settle p s hp) = length hp.
Proof.
  unfold settle. destruct (hp !! p) as [[| | | | |[]]|]; try done.
  apply length_insert.
Qed.

Lemma deliver_length hp c : length (deliver hp c) = length hp.
Proof.
  unfold deliver. destruct c.1; try done.
  destruct (hp !! l) as [[]|]; try done; apply settle_length.
Qed.

Lemma deliver_all_length cs : ∀ hp, length (foldl deliver hp cs) = length hp.
Proof.
  induction cs as [|c cs IH]; intros hp; simpl; [done|].
  by rewrite IH, deliver_length.
Qed.

Lemma own_props_function hp v : is_function hp v = true → own_props hp v = ∅.
Proof.
  destruct v; simpl; try done. by destruct (hp !! l) as [[]|].
Qed.

Lemma field_undefined hp k : field hp VUndef k = VUndef.
Proof. done. Qed.

Lemma foldl_field_undefined hp ks : foldl (field hp) VUndef ks = VUndef.
Proof. induction ks as [|k ks IH]; simpl; [done|]. by rewrite field_undefined. Qed.

(** Whatever a host reaches from a function it was handed as its sole
    argument is that function or [undefined]. *)
Lemma resolve_path_bare hp F pt :
  is_function hp F = true →
  resolve_path hp [F] pt = F ∨ resolve_path hp [F] pt = VUndef.
Proof.
  intros HF. unfold resolve_path. destruct pt as [[|i] ks]; simpl.
  - destruct ks as [|k ks]; simpl; [by left|]. right.
    unfold field at 2. rewrite own_props_function by done.
    rewrite lookup_empty. apply foldl_field_undefined.
  - right. destruct i; simpl; apply foldl_field_undefined.
Qed.

Section Bare.

Variable ext : nat → list value → list object → behaviour.

(** The bare-callback branch against a host function, in full. *)
Lemma invoker_bare_host hl h args hp lg q :
  hp !! hl = Some (OFun h) → is_function hp (first_arg args) = true →
  let p := length hp in
  let F := first_arg args in
  let hp1 := bare_store hp in
  let b := ext h [F] hp1 in
  let hp2 := foldl deliver hp1 (resolve_call hp1 [F] <$> during b) in
  promisify_invoker ext (VRef hl) args (State hp lg q)
  = (Normal (VRef p),
     State (match outcome b with
            | Normal v => settle p (Resolved v) hp2
            | Throw e => settle p (Rejected e) hp2
            end)
           (lg ++ [(h, [F])])
           (q ++ (resolve_call hp1 [F] <$> later b))).
Proof.
  intros Hh Hf p F hp1 b hp2.
  rewrite invoker_bare by done. fold p F hp1.
  assert (Hh1 : hp1 !! hl = Some (OFun h)).
  { unfold hp1, bare_store. cbv zeta.
    rewrite lookup_app_old; [done|]. by eapply lookup_lt_Some. }
  pose proof (call_host ext hl h [F] (State hp1 lg q) Hh1) as Hcall.
  cbn [heap log queue] in Hcall. fold b hp2 in Hcall.
  assert (Hr : hp2 !! (p + 1) = Some (OResolve p)).
  { apply deliver_all_lookup_function; [done|].
    unfold hp1, p, bare_store. cbv zeta. by rewrite lookup_app_plus. }
  assert (Hj : hp2 !! (p + 2) = Some (OReject p)).
  { apply deliver_all_lookup_function; [done|].
    unfold hp1, p, bare_store. cbv zeta. by rewrite lookup_app_plus. }
  destruct (outcome b) as [v|e] eqn:Eo.
  - erewrite bind_normal; [done|]. erewrite try_catch_normal; [done|].
    erewrite bind_normal by exact Hcall.
    by rewrite (call_resolve _ _ p).
  - erewrite bind_normal; [done|].
    erewrite try_catch_thrown by (erewrite bind_thrown; [done | exact Hcall]).
    by rewrite (call_reject _ _ p).
Qed.

End Bare.

(** C5.  When the options argument is a function [F], the invoker calls
    the host operation with [F] as its only argument: the extra arguments
    are not forwarded and no options object with [success] and [fail] is
    built (the call adds the promise and its two resolving functions to the
    store, nothing else).  The returned promise is resolved with what the
    host operation returns. *)
Theorem invoker_bare_callback ext this hl h F extras st :
  truthy (wx this) = true → heap_ok (heap st) →
  heap st !! hl = Some (OFun h) → is_function (heap st) F = true →
  let p := length (heap st) in
  let run := promisify_invoker ext (VRef hl) (F :: extras) st in
  promisify ext this (VRef hl) st = (Normal (promisify_invoker ext (VRef hl)), st) ∧
  run.1 = Normal (VRef p) ∧
  log run.2 = log st ++ [(h, [F])] ∧
  length (heap run.2) = length (heap st) + 3 ∧
  ∀ v, outcome (ext h [F] (bare_store (heap st))) = Normal v →
       promise_state (heap run.2) p = Some (Resolved v).
Proof.
  intros Hwx Hok Hh HF p run. subst p run.
  split; [by apply promisify_present|].
  destruct st as [hp lg q]. cbn [heap log] in *.
  rewrite (invoker_bare_host ext hl h) by done. cbn [fst snd heap log first_arg hd].
  split; [done|]. split; [done|]. split.
  - destruct (outcome _); rewrite settle_length, deliver_all_length;
      unfold bare_store; cbv zeta; by rewrite length_app.
  - intros v Hv. rewrite Hv, promise_state_settle.
    rewrite (promise_state_deliver_all _ _ _ (length hp + 1) (length hp + 2))
      by (by apply sole_resolvers_bare).
    rewrite promise_state_bare.
    rewrite (first_report_old hp); [by rewrite decide_True| |lia|lia].
    apply Forall_fmap, Forall_forall. intros c _. simpl.
    destruct (resolve_path_bare (bare_store hp) F (callee c)) as [-> | ->];
      [| |done].
    + unfold bare_store. cbv zeta.
      rewrite is_function_app; [done|]. by apply is_function_val_in.
    + by apply is_function_val_in.
Qed.

Lemma invoker_bare_callback_witness :
  log (promisify_invoker demo_ext (VRef 2) [VRef 8; VNum 1] demo_store).2
  = [(2, [VRef 8])] ∧
  promise_state (heap (promisify_invoker demo_ext (VRef 2) [VRef 8; VNum 1] demo_store).2) 9
  = Some (Resolved (VNum 7)).
Proof.
  assert (Hok : heap_ok (heap demo_store)) by apply demo_store_wf.
  split.
  - apply (invoker_bare_callback demo_ext demo_adapter 2 2 (VRef 8) [VNum 1] demo_store);
      try reflexivity; exact Hok.
  - apply (invoker_bare_callback demo_ext demo_adapter 2 2 (VRef 8) [VNum 1] demo_store);
      try reflexivity; exact Hok.
Defined.

(** ** [setOption] against the composition of the specification *)

Lemma throws_quietly_new_error {A} name message st :
  throws_quietly st (throw_new (A := A) name message st).
Proof.
  destruct st as [hp lg q]. rewrite throw_new_run.
  split; [by eexists|]. split; [done|]. split; [done|]. cbn [snd heap].
  intros l s [H|[_ H]]%lookup_app_Some; [done|].
  destruct (l - length hp) as [|[|]]; simpl in H; done.
Qed.

(** C7.  [setOption(name, options)] against the composition: the invoker
    of the named operation called with [options] when they were supplied,
    and with no argument when they were not.  Whenever the held capability
    object is neither [null] nor [undefined] the two are the same
    computation: same result, same store, same host call, same promise.
    This covers falsy options such as [0] or [''], which [setOption] treats
    as absent: an invoker does the same with them as with no argument.
    When the capability object is [null] or [undefined], both sides throw
    to the caller without calling a host function or creating a promise
    ([setOption] at its own guard, the composition on reading the named
    field). *)
Theorem setOption_is_the_composition ext this name options st :
  if nullish (wx this)
  then throws_quietly st (setOption ext this name options st) ∧
       throws_quietly st (invokeByName_composed ext this name options st)
  else setOption ext this name options st
       = invokeByName_composed ext this name options st.
Proof.
  destruct (nullish (wx this)) eqn:Hn.
  - split.
    + unfold setOption. destruct (wx this); try done; apply throws_quietly_new_error.
    + unfold invokeByName_composed, get_prop. rewrite Hn.
      assert (H : throws_quietly st
                    (throw_new (A := value) "TypeError"
                       "Cannot read properties of undefined" st))
        by apply throws_quietly_new_error.
      destruct st as [hp lg q].
      destruct options; by rewrite (bind_thrown _ _ _ _ _ (throw_new_run _ _ hp lg q)).
  - destruct (truthy (wx this)) eqn:Hwx.
    + rewrite setOption_present by done.
      unfold invokeByName_composed.
      pose proof (get_prop_run (wx this) name st Hn) as Hget.
      destruct options;
        rewrite (bind_normal _ _ _ _ _ Hget),
                (bind_normal _ _ _ _ _ (promisify_present ext this _ st Hwx));
        done.
    + destruct st as [hp lg q].
      rewrite setOption_absent by done.
      unfold invokeByName_composed.
      pose proof (get_prop_run (wx this) name (State hp lg q) Hn) as Hget.
      destruct options;
        by rewrite (bind_normal _ _ _ _ _ Hget),
                   (bind_thrown _ _ _ _ _ (promisify_absent ext this _ hp lg q Hwx)).
Qed.

(** ** The HTTP-verb shortcuts *)

Lemma object_assign_literal hp news lg q i j tp cb :
  news !! i = Some (OPlain tp) → news !! j = Some (OPlain cb) →
  object_assign (VRef (length hp + i)) [VRef (length hp + j)] (State (hp ++ news) lg q)
  = (Normal (VRef (length hp + i)),
     State (hp ++ <[i := OPlain (cb ∪ tp)]> news) lg q).
Proof.
  intros Hi Hj. simpl. rewrite bind_modify_heap. unfold ret, with_heap. simpl.
  rewrite lookup_app_plus, Hj.
  by rewrite (write_props_app_plus _ _ _ _ tp).
Qed.

Lemma verb_options_run method url data header hp lg q :
  verb_options method url data header (State hp lg q)
  = (Normal (VRef (length hp)),
     State (hp ++ [OPlain (verb_fields method url data header);
                   OPlain (verb_fields method url data header)]) lg q).
Proof.
  unfold verb_options. rewrite bind_alloc.
  rewrite (bind_alloc_app _ _ hp [OPlain ∅]). cbn [length app].
  replace (VRef (length hp)) with (VRef (length hp + 0)) by (f_equal; lia).
  erewrite object_assign_literal by done. cbn [list_insert].
  by rewrite (right_id_L ∅ (∪)).
Qed.

Lemma default_data_run data hp lg q :
  default_data data (State hp lg q)
  = match data with
    | VUndef => (Normal (VRef (length hp)), State (hp ++ [OPlain ∅]) lg q)
    | _ => (Normal data, State hp lg q)
    end.
Proof. by destruct data. Qed.

Section Verbs.

Variable ext : nat → list value → list object → behaviour.

(** [setOption] on an options object, against a host function. *)
Lemma setOption_object_run this name h o props st :
  host_operation (heap st) this name h → heap st !! o = Some (OPlain props) →
  let p := length (heap st) in
  let run := setOption ext this name (VRef o) st in
  run.1 = Normal (VRef p) ∧
  log run.2 = log st ++ [(h, [VRef (p + 3)])] ∧
  heap run.2 !! (p + 1) = Some (OResolve p) ∧
  heap run.2 !! (p + 2) = Some (OReject p) ∧
  heap run.2 !! (p + 3)
  = Some (OPlain (<["fail" := VRef (p + 2)]> (<["success" := VRef (p + 1)]> props))) ∧
  ∀ l x, (∀ s, x ≠ OPromise s) → heap st !! l = Some x → heap run.2 !! l = Some x.
Proof.
  intros (Hwx & hl & Hfield & Hh) Ho p run. subst p run.
  assert (Hv : val_in (heap st) (first_arg [VRef o])) by (by eapply lookup_lt_Some).
  assert (Hf : is_function (heap st) (first_arg [VRef o]) = false)
    by (simpl; by rewrite Ho).
  rewrite setOption_present, Hfield by done.
  destruct (invoker_structured_log ext hl h [VRef o] st Hh Hv Hf) as [Hres Hlog].
  pose proof (λ l x, invoker_structured_keeps ext hl h [VRef o] st l x Hh Hv Hf) as Hkeep.
  split; [done|]. split; [done|].
  split; [apply Hkeep; [done|]; unfold structured_store; cbv zeta;
          by rewrite lookup_app_plus|].
  split; [apply Hkeep; [done|]; unfold structured_store; cbv zeta;
          by rewrite lookup_app_plus|].
  split.
  - apply Hkeep; [done|]. unfold structured_store. cbv zeta.
    rewrite lookup_app_plus. simpl. by rewrite Ho.
  - intros l x Hx Hl. apply Hkeep; [done|]. unfold structured_store. cbv zeta.
    rewrite lookup_app_old; [done|]. by eapply lookup_lt_Some.
Qed.

(** What the four shortcuts have in common: the body of the method with
    the verb literal [method]. *)
Lemma verb_run this method url data header h st :
  host_operation (heap st) this "request" h →
  let run :=
    async (let* d := default_data data in
           let* options := verb_options method (default_url url) d header in
           setOption ext this "request" options) st in
  ∃ m d p,
    run.1 = Normal (VRef (length (heap st))) ∧
    log run.2 = log st ++ [(h, [VRef m])] ∧
    heap st !! m = None ∧
    heap run.2 !! m
    = Some (OPlain (<["fail" := VRef (p + 2)]> (<["success" := VRef (p + 1)]>
                      (verb_fields method (default_url url) d header)))) ∧
    heap run.2 !! (p + 1) = Some (OResolve p) ∧
    heap run.2 !! (p + 2) = Some (OReject p) ∧
    match data with
    | VUndef => ∃ l, d = VRef l ∧ heap st !! l = None ∧ heap run.2 !! l = Some (OPlain ∅)
    | _ => d = data
    end.
Proof.
  intros Hop run. subst run. destruct st as [hp lg q]. cbn [heap log] in *.
  rewrite async_run.
  set (hp1 := hp ++ [OPromise Pending]).
  assert (Hlen1 : length hp ≤ length hp1) by (unfold hp1; rewrite length_app; lia).
  assert (Hop1 : host_operation hp1 this "request" h) by (by apply host_operation_app).
  pose proof (default_data_run data hp1 lg q) as Hd.
  set (d := match data with VUndef => VRef (length hp1) | _ => data end).
  set (hp2 := match data with VUndef => hp1 ++ [OPlain ∅] | _ => hp1 end).
  assert (Hd' : default_data data (State hp1 lg q) = (Normal d, State hp2 lg q))
    by (rewrite Hd; by destruct data).
  assert (Hlen2 : length hp1 ≤ length hp2)
    by (unfold hp2; destruct data; rewrite ?length_app; lia).
  assert (Hop2 : host_operation hp2 this "request" h)
    by (unfold hp2; destruct data; try done; by apply host_operation_app).
  set (fields := verb_fields method (default_url url) d header).
  set (hp3 := hp2 ++ [OPlain fields; OPlain fields]).
  assert (Hop3 : host_operation hp3 this "request" h) by (by apply host_operation_app).
  assert (Ho3 : hp3 !! length hp2 = Some (OPlain fields))
    by (unfold hp3; by rewrite lookup_app_length).
  rewrite (bind_normal _ _ _ _ _ Hd').
  rewrite (bind_normal _ _ _ _ _ (verb_options_run method (default_url url) d header hp2 lg q)).
  fold fields hp3.
  destruct (setOption_object_run this "request" h (length hp2) fields
              (State hp3 lg q) Hop3 Ho3) as (Hres & Hlog & Hr & Hj & Hm & Hkeep).
  cbn [heap log] in *. rewrite Hres.
  exists (length hp3 + 3), d, (length hp3).
  cbn [fst snd with_heap heap log].
  split; [done|]. split; [done|].
  split; [apply lookup_ge_None_2; unfold hp3; rewrite length_app; simpl; lia|].
  split; [by apply settle_lookup_function|].
  split; [by apply settle_lookup_function|].
  split; [by apply settle_lookup_function|].
  destruct data; try done.
  exists (length hp1). split; [done|].
  split; [apply lookup_ge_None_2; lia|].
  apply settle_lookup_function; [done|]. apply Hkeep; [done|].
  unfold hp3, hp2. rewrite lookup_app_old by (rewrite length_app; simpl; lia).
  by rewrite lookup_app_length.
Qed.

End Verbs.

(** C8.  [post(url, data, header)] calls the host operation [request] with
    one argument, a new object whose fields are [method: 'POST'], [url],
    [data] and [header] together with the injected [success] and [fail]
    callbacks, which are the resolving functions of the promise of that
    call; [get], [put] and [delete] do the same with ['GET'], ['PUT'] and
    ['DELETE'].  [url] and [data] are the method's parameters: an
    [undefined] argument takes the parameter's default, [''] for [url] and
    a new empty object for [data]. *)
Theorem verb_shortcuts_call_request ext this url data header h st :
  host_operation (heap st) this "request" h →
  request_called_with st h "POST" url data header (post ext this url data header st) ∧
  request_called_with st h "GET" url data header (get ext this url data header st) ∧
  request_called_with st h "PUT" url data header (put ext this url data header st) ∧
  request_called_with st h "DELETE" url data header (delete_ ext this url data header st) ∧
  (url ≠ VUndef → default_url url = url) ∧
  default_url VUndef = VStr "".
Proof.
  intros Hop.
  split; [exact (verb_run ext this "POST" url data header h st Hop)|].
  split; [exact (verb_run ext this "GET" url data header h st Hop)|].
  split; [exact (verb_run ext this "PUT" url data header h st Hop)|].
  split; [exact (verb_run ext this "DELETE" url data header h st Hop)|].
  split; [by destruct url|done].
Qed.

Lemma demo_request_operation : host_operation (heap demo_store) demo_adapter "request" 1.
Proof. split; [reflexivity|]. exists 1. split; reflexivity. Defined.

Lemma verb_shortcuts_call_request_witness :
  request_called_with demo_store 1 "POST" (VStr "/x") VUndef VNull
    (post demo_ext demo_adapter (VStr "/x") VUndef VNull demo_store) ∧
  request_called_with demo_store 1 "DELETE" VUndef (VRef 4) (VRef 7)
    (delete_ demo_ext demo_adapter VUndef (VRef 4) (VRef 7) demo_store).
Proof.
  split.
  - exact (proj1 (verb_shortcuts_call_request demo_ext demo_adapter (VStr "/x") VUndef VNull
                    1 demo_store demo_request_operation)).
  - exact (proj1 (proj2 (proj2 (proj2
             (verb_shortcuts_call_request demo_ext demo_adapter VUndef (VRef 4) (VRef 7)
                1 demo_store demo_request_operation))))).
Defined.

(** C9.  No adapter operation changes an object it did not create: a plain
    object of the store, such as the capability object or the options
    object of the caller, has exactly the same fields after any invocation
    as before, also once the hosts' queued callbacks have run.  The
    [success] and [fail] fields are written into a new object only. *)
Theorem adapter_leaves_objects_unchanged ext this st l props :
  heap st !! l = Some (OPlain props) →
  let unchanged (run : completion value * state) : Prop :=
    heap run.2 !! l = Some (OPlain props) ∧
    heap (drain run.2) !! l = Some (OPlain props) in
  (∀ api args, unchanged (promisify_invoker ext api args st)) ∧
  (∀ name options, unchanged (setOption ext this name options st)) ∧
  (∀ name options, unchanged (passthrough ext this name options st)) ∧
  (∀ url data header, unchanged (get ext this url data header st)) ∧
  (∀ url data header, unchanged (post ext this url data header st)) ∧
  (∀ url data header, unchanged (put ext this url data header st)) ∧
  (∀ url data header, unchanged (delete_ ext this url data header st)) ∧
  (∀ api, heap (promisify ext this api st).2 !! l = Some (OPlain props)).
Proof.
  intros Hl unchanged.
  assert (Hun : ∀ run, evolves (heap st) (heap run.2) → unchanged run).
  { intros run Hev. split.
    - by eapply evolves_plain.
    - eapply evolves_plain; [|exact Hl].
      eapply evolves_trans; [exact Hev|]. apply evolves_deliver_all. }
  destruct (operations_evolve ext this st)
    as (Hinv & Hprom & Hset & Hpass & Hget & Hpost & Hput & Hdel).
  repeat split; intros; try (apply Hun; auto); try (eapply evolves_plain; eauto).
Qed.

Lemma adapter_leaves_objects_unchanged_witness :
  heap (drain (post demo_ext demo_adapter (VStr "/x") (VRef 4) (VRef 7) demo_store).2) !! 4
  = Some (OPlain {["timeout" := VNum 5]}) ∧
  heap (setOption demo_ext demo_adapter "login" (VRef 4) demo_store).2 !! 3
  = Some (OPlain (<["login" := VRef 0]> (<["request" := VRef 1]> {["nextTick" := VRef 2]}))).
Proof.
  split.
  - pose proof (adapter_leaves_objects_unchanged demo_ext demo_adapter demo_store 4
                  {["timeout" := VNum 5]} eq_refl) as (_ & _ & _ & _ & Hpost & _).
    exact (proj2 (Hpost (VStr "/x") (VRef 4) (VRef 7))).
  - pose proof (adapter_leaves_objects_unchanged demo_ext demo_adapter demo_store 3
                  (<["login" := VRef 0]> (<["request" := VRef 1]> {["nextTick" := VRef 2]}))
                  eq_refl) as (_ & Hset & _).
    exact (proj1 (Hset "login" (VRef 4))).
Defined.

(** * Further properties of the code *)

Lemma demo_options_in : val_in (heap demo_store) (VRef 4).
Proof. simpl. lia. Defined.

Lemma demo_login_operation : host_operation (heap demo_store) demo_adapter "login" 0.
Proof. split; [reflexivity|]. exists 0. split; reflexivity. Defined.

(** ** What decides the promise *)

(** The promise [setOption] returns for a host operation ends in the state
    the host's run dictates: the first call of [success] or [fail] decides;
    failing that, an exception the host throws rejects it; failing that, the
    first later call of either decides; and if none of this happens it stays
    pending. *)
Theorem setOption_promise_fate ext this name options h st :
  wf st → host_operation (heap st) this name h →
  val_in (heap st) options → is_function (heap st) options = false →
  let p := length (heap st) in
  let received := structured_store (heap st) options in
  let args := [VRef (p + 3)] in
  let run := setOption ext this name options st in
  run.1 = Normal (VRef p) ∧
  field received (VRef (p + 3)) "success" = VRef (p + 1) ∧
  field received (VRef (p + 3)) "fail" = VRef (p + 2) ∧
  promise_state (heap (drain run.2)) p
  = Some (default Pending
            (verdict (VRef (p + 1)) (VRef (p + 2)) received args (ext h args received))).
Proof.
  intros Hwf (Hwx & hl & Hfield & Hh) Hv Hf p received args run.
  subst p received args run. rewrite setOption_present, Hfield by done.
  split.
  { destruct st as [hp lg q]. cbn [heap] in *.
    by rewrite (invoker_structured_host ext hl h). }
  split; [apply structured_store_success|].
  split; [apply structured_store_fail|].
  by rewrite (structured_settlement ext hl h).
Qed.

Lemma setOption_promise_fate_witness :
  promise_state
    (heap (drain (setOption demo_ext demo_adapter "request" (VRef 4) demo_store).2)) 9
  = Some (default Pending
            (verdict (VRef 10) (VRef 11) (structured_store (heap demo_store) (VRef 4))
               [VRef 12]
               (demo_ext 1 [VRef 12] (structured_store (heap demo_store) (VRef 4))))).
Proof.
  pose proof (setOption_promise_fate demo_ext demo_adapter "request" (VRef 4) 1 demo_store
                demo_store_wf demo_request_operation demo_options_in eq_refl)
    as (_ & _ & _ & H).
  exact H.
Defined.

(** A host operation that throws before calling back does not make
    [setOption] throw: the call returns its promise, already rejected with
    the thrown value, and the promise stays so. *)
Theorem host_exception_rejects ext this name options h e st :
  host_operation (heap st) this name h →
  val_in (heap st) options → is_function (heap st) options = false →
  throws_at_once (ext h) e →
  let p := length (heap st) in
  let run := setOption ext this name options st in
  run.1 = Normal (VRef p) ∧
  log run.2 = log st ++ [(h, [VRef (p + 3)])] ∧
  promise_state (heap run.2) p = Some (Rejected e) ∧
  promise_state (heap (drain run.2)) p = Some (Rejected e).
Proof.
  intros (Hwx & hl & Hfield & Hh) Hv Hf Hthrow p run. subst p run.
  rewrite setOption_present, Hfield by done.
  destruct st as [hp lg q]. cbn [heap log] in *.
  rewrite (invoker_structured_host ext hl h) by done. cbn [first_arg hd tl].
  destruct (Hthrow [VRef (length hp + 3)] (structured_store hp options)) as [Hd Ho].
  rewrite Hd, Ho. cbn [fst snd heap log fmap list_fmap foldl].
  assert (Hnow : promise_state (settle (length hp) (Rejected e) (structured_store hp options))
                   (length hp) = Some (Rejected e)).
  { rewrite promise_state_settle, promise_state_structured. by rewrite decide_True. }
  repeat split; try done.
  eapply evolves_settled; [apply evolves_deliver_all|exact Hnow|done].
Qed.

(** In the structured-options branch the value a host operation returns is
    not used: when the host returns without ever calling [success] or
    [fail], the promise is pending on return and remains pending after the
    queued callbacks have run.  The adapter settles nothing by itself. *)
Theorem silent_host_leaves_promise_pending ext this name options h st :
  wf st → host_operation (heap st) this name h →
  val_in (heap st) options → is_function (heap st) options = false →
  never_calls_back (ext h) →
  let p := length (heap st) in
  let run := setOption ext this name options st in
  run.1 = Normal (VRef p) ∧
  promise_state (heap run.2) p = Some Pending ∧
  promise_state (heap (drain run.2)) p = Some Pending.
Proof.
  intros Hwf Hop Hv Hf Hsilent p run. subst p run.
  pose proof Hop as (Hwx & hl & Hfield & Hh).
  destruct (Hsilent [VRef (length (heap st) + 3)] (structured_store (heap st) options))
    as (Hd & Hl & v & Ho).
  split; [|split].
  - rewrite setOption_present, Hfield by done.
    destruct st as [hp lg q]. cbn [heap] in *.
    by rewrite (invoker_structured_host ext hl h).
  - rewrite setOption_present, Hfield by done.
    destruct st as [hp lg q]. cbn [heap] in *.
    rewrite (invoker_structured_host ext hl h) by done. cbn [first_arg hd tl].
    rewrite Hd, Ho. cbn [snd heap fmap list_fmap foldl].
    apply promise_state_structured.
  - rewrite setOption_present, Hfield by done.
    rewrite (structured_settlement ext hl h) by done. cbn [first_arg hd tl].
    unfold verdict. by rewrite Hd, Hl, Ho.
Qed.

Lemma host_exception_rejects_witness :
  (setOption faulty_ext demo_adapter "login" (VRef 4) demo_store).1 = Normal (VRef 9) ∧
  promise_state (heap (setOption faulty_ext demo_adapter "login" (VRef 4) demo_store).2) 9
  = Some (Rejected (VStr "boom")).
Proof.
  assert (Hthrow : throws_at_once (faulty_ext 0) (VStr "boom")) by (by intros args hp).
  pose proof (host_exception_rejects faulty_ext demo_adapter "login" (VRef 4) 0 (VStr "boom")
                demo_store demo_login_operation demo_options_in eq_refl Hthrow)
    as (H1 & _ & H2 & _).
  exact (conj H1 H2).
Defined.

Lemma silent_host_leaves_promise_pending_witness :
  promise_state
    (heap (drain (setOption faulty_ext demo_adapter "request" (VRef 4) demo_store).2)) 9
  = Some Pending.
Proof.
  assert (Hsilent : never_calls_back (faulty_ext 1))
    by (intros args hp; repeat split; by exists (VNum 7)).
  pose proof (silent_host_leaves_promise_pending faulty_ext demo_adapter "request" (VRef 4) 1
                demo_store demo_store_wf demo_request_operation demo_options_in eq_refl
                Hsilent) as (_ & _ & H).
  exact H.
Defined.

(** ** A bare callback through [setOption] and the named methods *)


Section BareThrough.

Variable ext : nat → list value → list object → behaviour.



End BareThrough.



(** ** The named methods without a capability object *)

Lemma default_data_extends data hp lg q :
  ∃ d news, default_data data (State hp lg q) = (Normal d, State (hp ++ news) lg q).
Proof.
  rewrite default_data_run.
  destruct data;
    try (eexists; exists []; by rewrite app_nil_r).
  by do 2 eexists.
Qed.

Lemma rejected_at_end hp rest lg q :
  rejected_for_absent_wx (State hp lg q)
    (Normal (VRef (length hp)),
     with_heap (settle (length hp) (Rejected (VRef (length (hp ++ OPromise Pending :: rest)))))
       (State ((hp ++ OPromise Pending :: rest) ++ [OError "Error" "wx对象不存在"]) lg q)).
Proof.
  unfold rejected_for_absent_wx. cbn [fst snd with_heap heap log].
  split; [done|]. split; [done|].
  exists (length (hp ++ OPromise Pending :: rest)).
  rewrite <- app_assoc. cbn [app]. rewrite settle_new.
  split; [apply lookup_ge_None_2; rewrite length_app; simpl; lia|].
  split.
  - unfold promise_state. by rewrite lookup_app_length.
  - rewrite length_app. cbn [length]. rewrite lookup_app_plus.
    change ((rest ++ [OError "Error" "wx对象不存在"]) !! length rest
            = Some (OError "Error" "wx对象不存在")).
    by rewrite lookup_app_length.
Qed.

(** The named methods are [async]: with a falsy capability object they do
    not throw.  Each returns its promise, rejected with the error
    [wx对象不存在], and no host function is called.  For the HTTP-verb
    shortcuts this happens after the options object has been built. *)
Theorem methods_reject_without_wx ext this st :
  truthy (wx this) = false →
  (∀ name options, rejected_for_absent_wx st (passthrough ext this name options st)) ∧
  (∀ url data header, rejected_for_absent_wx st (get ext this url data header st)) ∧
  (∀ url data header, rejected_for_absent_wx st (post ext this url data header st)) ∧
  (∀ url data header, rejected_for_absent_wx st (put ext this url data header st)) ∧
  (∀ url data header, rejected_for_absent_wx st (delete_ ext this url data header st)).
Proof.
  intros Hwx.
  assert (Hverb : ∀ method url data header,
            rejected_for_absent_wx st
              (async (let* d := default_data data in
                      let* options := verb_options method (default_url url) d header in
                      setOption ext this "request" options) st)).
  { intros method url data header. destruct st as [hp lg q]. rewrite async_run.
    destruct (default_data_extends data (hp ++ [OPromise Pending]) lg q)
      as (d & news & Hd).
    rewrite (bind_normal _ _ _ _ _ Hd).
    rewrite (bind_normal _ _ _ _ _ (verb_options_run method (default_url url) d header _ lg q)).
    rewrite setOption_absent by done. cbn [fst snd].
    rewrite <- !app_assoc. cbn [app].
    pose proof (rejected_at_end hp
                  (news ++ [OPlain (verb_fields method (default_url url) d header);
                            OPlain (verb_fields method (default_url url) d header)]) lg q)
      as H.
    rewrite <- !app_assoc in H. cbn [app] in H. rewrite <- !app_assoc in H.
    exact H. }
  split.
  { intros name options. destruct st as [hp lg q]. unfold passthrough.
    rewrite async_run, setOption_absent by done. cbn [fst snd].
    exact (rejected_at_end hp [] lg q). }
  repeat split; intros; apply Hverb.
Qed.

Lemma methods_reject_without_wx_witness :
  rejected_for_absent_wx demo_store (passthrough demo_ext (constructor VNull) "login" (VRef 4) demo_store) ∧
  rejected_for_absent_wx demo_store (get demo_ext (constructor (VNum 0)) (VStr "/x") VUndef VUndef demo_store).
Proof.
  split.
  - exact (proj1 (methods_reject_without_wx demo_ext (constructor VNull) demo_store eq_refl)
             "login" (VRef 4)).
  - exact (proj1 (proj2 (methods_reject_without_wx demo_ext (constructor (VNum 0)) demo_store
                           eq_refl)) (VStr "/x") VUndef VUndef).
Defined.

(** ** The HTTP-verb shortcuts settle as the host reports *)

Lemma heap_ok_app_inert hp added : heap_ok hp → inert added → heap_ok (hp ++ added).
Proof.
  intros Hok Hin l p H. rewrite length_app.
  assert (Hl : hp !! l = Some (OResolve p) ∨ hp !! l = Some (OReject p)).
  { destruct H as [H|H]; apply lookup_app_Some in H as [H|[_ H]]; auto;
      by destruct (Hin (l - length hp) p). }
  specialize (Hok l p Hl). lia.
Qed.

Lemma wf_app_inert hp added lg q :
  wf (State hp lg q) → inert added → wf (State (hp ++ added) lg q).
Proof.
  intros [Hok Hq] Hin. split; cbn [heap queue] in *.
  - by apply heap_ok_app_inert.
  - unfold queue_ok in *. cbn [heap queue] in *.
    eapply Forall_impl; [exact Hq|]. intros c Hc. by apply val_in_app.
Qed.

Lemma inert_plain_cons props objs : inert objs → inert (OPlain props :: objs).
Proof. intros H [|i] p; simpl; [done|apply H]. Qed.

Lemma inert_promise_cons s objs : inert objs → inert (OPromise s :: objs).
Proof. intros H [|i] p; simpl; [done|apply H]. Qed.

Lemma inert_nil : inert [].
Proof. intros i p. by rewrite lookup_nil. Qed.

Lemma inert_app objs1 objs2 : inert objs1 → inert objs2 → inert (objs1 ++ objs2).
Proof.
  intros H1 H2 i p.
  split; intros [H|[_ H]]%lookup_app_Some;
    (by destruct (H1 i p)) || (by destruct (H2 (i - length objs1) p)).
Qed.

Lemma default_data_inert data hp lg q :
  ∃ d news, default_data data (State hp lg q) = (Normal d, State (hp ++ news) lg q) ∧
            inert news.
Proof.
  rewrite default_data_run.
  destruct data;
    try (eexists; exists []; split; [by rewrite app_nil_r | apply inert_nil]).
  do 2 eexists. split; [done|]. apply inert_plain_cons, inert_nil.
Qed.

Section Wrapped.

Variable ext : nat → list value → list object → behaviour.

(** An [async] method that, after creating its promise and possibly other
    objects (none of them a resolving function), ends in
    [setOption(name, options)] on an options object. *)
Lemma wrapped_settles this name h s hp added lg q o props :
  wf (State hp lg q) → host_operation hp this name h → reports (ext h) s →
  inert added → added !! 0 = Some (OPromise Pending) →
  (hp ++ added) !! o = Some (OPlain props) →
  let run := setOption ext this name (VRef o) (State (hp ++ added) lg q) in
  let final :=
    foldl deliver
      (settle (length hp)
         match run.1 with Normal v => Resolved v | Throw e => Rejected e end
         (heap run.2))
      (queue run.2) in
  run.1 = Normal (VRef (length (hp ++ added))) ∧
  promise_state final (length hp) = Some (Resolved (VRef (length (hp ++ added)))) ∧
  promise_state final (length (hp ++ added)) = Some s.
Proof.
  intros Hwf Hop Hrep Hin H0 Ho run final. subst run final.
  set (hp3 := hp ++ added).
  assert (Hlen : length hp < length hp3).
  { unfold hp3. rewrite length_app. destruct added; [done|]. simpl. lia. }
  assert (Hwf3 : wf (State hp3 lg q)) by (by apply wf_app_inert).
  destruct (host_operation_app hp added this name h Hop) as (Hwx & hl & Hfield & Hh).
  fold hp3 in Hfield, Hh.
  assert (Hv : val_in hp3 (first_arg [VRef o])) by (simpl; by eapply lookup_lt_Some).
  assert (Hf : is_function hp3 (first_arg [VRef o]) = false)
    by (simpl; fold hp3 in Ho; by rewrite Ho).
  rewrite setOption_present by done. cbn [heap]. rewrite Hfield.
  pose proof (structured_settlement_after ext
                (settle (length hp) (Resolved (VRef (length hp3)))) hl h [VRef o]
                (State hp3 lg q) Hwf3 Hh Hv Hf) as Hp.
  cbv zeta in Hp. cbn [heap first_arg hd tl] in Hp.
  pose proof (invoker_structured_host ext hl h [VRef o] hp3 lg q Hh Hv Hf) as Hrun.
  cbv zeta in Hrun. cbn [first_arg hd tl] in Hrun.
  specialize (Hrep (VRef (length hp3 + 3) :: []) (structured_store hp3 (VRef o))).
  cbn [first_arg hd] in Hrep.
  rewrite structured_store_success, structured_store_fail in Hrep.
  rewrite Hrun in *. cbn [fst snd heap queue] in *.
  split; [done|]. split.
  - eapply evolves_settled; [apply evolves_deliver_all| |done].
    rewrite promise_state_settle.
    assert (Hno : no_resolvers (structured_store hp3 (VRef o)) (length hp)).
    { apply no_resolvers_structured; [|lia].
      intros l p0 H. destruct Hwf as [Hok _]. cbn [heap] in Hok.
      assert (Hl : hp !! l = Some (OResolve p0) ∨ hp !! l = Some (OReject p0)).
      { destruct H as [H|H]; apply lookup_app_Some in H as [H|[_ H]]; auto;
          by destruct (Hin (l - length hp) p0). }
      specialize (Hok l p0 Hl). lia. }
    assert (Hpend : promise_state (structured_store hp3 (VRef o)) (length hp)
                    = Some Pending).
    { unfold promise_state, structured_store, hp3. cbv zeta.
      rewrite <- app_assoc, lookup_app_length.
      destruct added; [done|]. simpl in H0. by injection H0 as ->. }
    destruct (outcome (ext h [VRef (length hp3 + 3)] (structured_store hp3 (VRef o)))).
    + rewrite promise_state_deliver_all_none, Hpend by done. by rewrite decide_True.
    + rewrite promise_state_settle, promise_state_deliver_all_none, Hpend by done.
      rewrite decide_False by lia. by rewrite decide_True.
  - rewrite Hp.
    + rewrite Hrep; [done|]. intros [=]. lia.
    + intros X HX. by apply sole_resolvers_settle.
    + intros X. rewrite promise_state_settle.
      destruct (promise_state X (length hp3)) as [[]|]; try done.
      by rewrite decide_False by lia.
Qed.

Lemma verb_settles this method url data header h s st :
  wf st → host_operation (heap st) this "request" h → reports (ext h) s →
  settles_through st s
    (async (let* d := default_data data in
            let* options := verb_options method (default_url url) d header in
            setOption ext this "request" options) st).
Proof.
  intros Hwf Hop Hrep. destruct st as [hp lg q]. cbn [heap] in *.
  rewrite async_run.
  destruct (default_data_inert data (hp ++ [OPromise Pending]) lg q)
    as (d & news & Hd & Hnews).
  rewrite (bind_normal _ _ _ _ _ Hd).
  rewrite (bind_normal _ _ _ _ _ (verb_options_run method (default_url url) d header _ lg q)).
  set (fields := verb_fields method (default_url url) d header).
  set (added := OPromise Pending :: news ++ [OPlain fields; OPlain fields]).
  assert (Heq : ((hp ++ [OPromise Pending]) ++ news) ++ [OPlain fields; OPlain fields]
                = hp ++ added).
  { unfold added. by rewrite <- !app_assoc. }
  rewrite Heq.
  assert (Hin : inert added).
  { apply inert_promise_cons, inert_app; [done|].
    apply inert_plain_cons, inert_plain_cons, inert_nil. }
  assert (Ho : (hp ++ added) !! length ((hp ++ [OPromise Pending]) ++ news)
               = Some (OPlain fields)).
  { rewrite <- Heq. by rewrite lookup_app_length. }
  destruct (wrapped_settles this "request" h s hp added lg q _ fields
              Hwf Hop Hrep Hin eq_refl Ho) as (Hres & HP & Hp).
  unfold settles_through. cbn [fst snd heap drain with_heap queue].
  split; [done|]. exists (length (hp ++ added)).
  split; [apply lookup_ge_None_2; rewrite length_app; lia|]. by split.
Qed.

End Wrapped.

(** What C1 says of [setOption] holds for the four HTTP-verb shortcuts as
    well, for every [url], [data] and [header]: each returns its own
    promise, resolved with the promise of the [request] call, and that one
    ends up resolved with the value the host passes to [success], or
    rejected with the value it passes to [fail]. *)
Theorem verb_shortcuts_settle ext this url data header h s st :
  wf st → host_operation (heap st) this "request" h → reports (ext h) s →
  settles_through st s (get ext this url data header st) ∧
  settles_through st s (post ext this url data header st) ∧
  settles_through st s (put ext this url data header st) ∧
  settles_through st s (delete_ ext this url data header st).
Proof.
  intros Hwf Hop Hrep.
  split; [exact (verb_settles ext this "GET" url data header h s st Hwf Hop Hrep)|].
  split; [exact (verb_settles ext this "POST" url data header h s st Hwf Hop Hrep)|].
  split; [exact (verb_settles ext this "PUT" url data header h s st Hwf Hop Hrep)|].
  exact (verb_settles ext this "DELETE" url data header h s st Hwf Hop Hrep).
Qed.

Lemma verb_shortcuts_settle_witness :
  settles_through demo_store (Rejected (VRef 6))
    (get demo_ext demo_adapter (VStr "/x") VUndef VUndef demo_store).
Proof.
  exact (proj1 (verb_shortcuts_settle demo_ext demo_adapter (VStr "/x") VUndef VUndef 1
                  (Rejected (VRef 6)) demo_store demo_store_wf demo_request_operation
                  demo_request_reports)).
Defined.

(** ** The earlier class against the current one *)

Lemma bind_same_run {A B} (c1 c2 : M A) (k : A → M B) st1 st2 :
  c1 st1 = c2 st2 → bind c1 k st1 = bind c2 k st2.
Proof. intros H. unfold bind. by rewrite H. Qed.

Lemma try_catch_same_run {A} (c1 c2 : M A) handler st1 st2 :
  c1 st1 = c2 st2 → try_catch c1 handler st1 = try_catch c2 handler st2.
Proof. intros H. unfold try_catch. by rewrite H. Qed.

Section EarlierClass.

Variable ext : nat → list value → list object → behaviour.

(** The earlier invoker always takes the path that the current one takes
    for options that are not a function. *)
Lemma earlier_invoker_run api args hp lg q :
  val_in hp (first_arg args) →
  Earlier.promisify_invoker ext api args (State hp lg q)
  = (let* _ := try_catch (call ext api (VRef (length hp + 3) :: tl args))
                         (λ e, call ext (VRef (length hp + 2)) [e]) in
     ret (VRef (length hp)))
      (State (structured_store hp (first_arg args)) lg q).
Proof.
  intros Hv. unfold Earlier.promisify_invoker, new_promise.
  rewrite bind_alloc, !bind_alloc_app. cbn [length app].
  apply bind_same_run, try_catch_same_run.
  rewrite !bind_alloc_app. cbn [length app].
  erewrite bind_normal; [|by apply object_assign_fresh]. cbn [list_insert].
  by rewrite merged_props.
Qed.

Lemma earlier_setOption_present this name options st :
  truthy (wx this) = true →
  Earlier.setOption ext this name options st
  = Earlier.promisify_invoker ext (field (heap st) (wx this) name) [options] st.
Proof.
  intros Hwx. unfold Earlier.setOption, Earlier.promisify.
  rewrite Hwx. cbn [negb].
  pose proof (get_prop_run (wx this) name st (truthy_not_nullish _ Hwx)) as Hget.
  by rewrite (bind_normal _ _ _ _ _ Hget), bind_ret.
Qed.

End EarlierClass.

(** For options that are not a function, the current [setOption] does
    exactly what the earlier one did: same result, same store, same host
    call.  The [if (options)] test and the bare-callback branch added since
    change nothing for such options. *)
Theorem setOption_extends_earlier ext this name options st :
  val_in (heap st) options → is_function (heap st) options = false →
  setOption ext this name options st = Earlier.setOption ext this name options st.
Proof.
  intros Hv Hf. destruct (truthy (wx this)) eqn:Hwx.
  - rewrite setOption_present, earlier_setOption_present by done.
    destruct st as [hp lg q]. cbn [heap].
    by rewrite invoker_structured, earlier_invoker_run.
  - unfold setOption, Earlier.setOption. by rewrite Hwx.
Qed.

Lemma setOption_extends_earlier_witness :
  setOption demo_ext demo_adapter "login" (VRef 4) demo_store
  = Earlier.setOption demo_ext demo_adapter "login" (VRef 4) demo_store.
Proof.
  exact (setOption_extends_earlier demo_ext demo_adapter "login" (VRef 4) demo_store
           demo_options_in eq_refl).
Defined.

(** The earlier class had no bare-callback convention: a function [F]
    given as options never reached the host operation.  [Object.assign]
    copied nothing from it, so the call was the same as with no options at
    all, the host receiving only the [{ success, fail }] object. *)
Theorem earlier_drops_function_options ext this name F st :
  is_function (heap st) F = true →
  Earlier.setOption ext this name F st = Earlier.setOption ext this name VUndef st.
Proof.
  intros HF. destruct (truthy (wx this)) eqn:Hwx.
  - rewrite !earlier_setOption_present by done.
    destruct st as [hp lg q]. cbn [heap] in *.
    rewrite !earlier_invoker_run by (done || by apply is_function_val_in).
    unfold structured_store. cbn [first_arg hd tl].
    by rewrite own_props_function.
  - unfold Earlier.setOption. by rewrite Hwx.
Qed.

Lemma earlier_drops_function_options_witness :
  Earlier.setOption demo_ext demo_adapter "nextTick" (VRef 8) demo_store
  = Earlier.setOption demo_ext demo_adapter "nextTick" VUndef demo_store.
Proof.
  exact (earlier_drops_function_options demo_ext demo_adapter "nextTick" (VRef 8) demo_store
           eq_refl).
Defined.

(** ** One host call at most *)

Lemma at_most_one_call_refl lg : at_most_one_call lg lg.
Proof. by left. Qed.

Lemma evolves_keeps hp hp' l o :
  evolves hp hp' → hp !! l = Some o → (∀ s, o ≠ OPromise s) → hp' !! l = Some o.
Proof.
  intros Hev Hl Ho. specialize (Hev l o Hl).
  destruct o as [| | | | |[]]; try done. by destruct (Ho Pending).
Qed.

Lemma object_assign_log target sources st :
  (object_assign target sources st).1 = Normal target ∧
  log (object_assign target sources st).2 = log st.
Proof.
  revert st. induction sources as [|src rest IH]; intros st; simpl; [done|].
  destruct target; try (rewrite bind_ret; apply IH).
  rewrite bind_modify_heap. destruct (IH (with_heap (λ hp, write_props l (own_props hp src) hp) st)).
  by split.
Qed.

Section OneCall.

Variable ext : nat → list value → list object → behaviour.

Lemma promisify_invoker_executor api args :
  promisify_invoker ext api args
  = new_promise ext (executor ext api (first_arg args) (tl args)).
Proof. reflexivity. Qed.

Lemma call_log f args st :
  at_most_one_call (log st) (log (call ext f args st).2).
Proof.
  unfold call. destruct f; try (by left).
  destruct (heap st !! l) as [[]|]; try (by left).
  right. by do 2 eexists.
Qed.

Lemma call_evolves f args st : evolves (heap st) (heap (call ext f args st).2).
Proof. apply (framed_call ext (heap st) f args st), evolves_refl. Qed.

Lemma framed_executor hp0 api options params resolve reject :
  framed hp0 (executor ext api options params resolve reject) (λ _, True).
Proof.
  unfold executor.
  eapply framed_bind; [apply framed_get_heap|]. intros hp _.
  destruct (is_function hp options).
  - eapply framed_bind; [apply framed_call|]. intros. apply framed_call.
  - eapply framed_bind; [apply framed_alloc|]. intros target Ht.
    eapply framed_bind; [apply framed_alloc|]. intros callbacks _.
    eapply framed_bind; [by apply framed_object_assign|]. intros merged _.
    apply framed_call.
Qed.

(** Run with the resolving functions of a promise, the executor calls a
    host function at most once. *)
Lemma executor_log api options params r j p st :
  heap st !! r = Some (OResolve p) →
  at_most_one_call (log st)
    (log (executor ext api options params (VRef r) (VRef j) st).2).
Proof.
  intros Hr. unfold executor. rewrite bind_get_heap.
  destruct (is_function (heap st) options).
  - pose proof (call_log api [options] st) as Hlog.
    pose proof (call_evolves api [options] st) as Hev.
    unfold bind. destruct (call ext api [options] st) as [[v|e] st1]; [|done].
    cbn [fst snd] in *.
    rewrite (call_resolve ext r p); [done|].
    by eapply evolves_keeps.
  - destruct st as [hp lg q]. rewrite !bind_alloc.
    destruct (object_assign_log (VRef (length hp))
                [options; VRef (length (hp ++ [OPlain ∅]))]
                (State ((hp ++ [OPlain ∅]) ++
                        [OPlain (<["fail" := VRef j]> {["success" := VRef r]})]) lg q))
      as [Hres Hlog].
    unfold bind at 1.
    destruct (object_assign _ _ _) as [c st1]. cbn [fst snd log] in *. subst c.
    rewrite <- Hlog. apply call_log.
Qed.

Lemma invoker_log api args st :
  at_most_one_call (log st) (log (promisify_invoker ext api args st).2).
Proof.
  rewrite promisify_invoker_executor. unfold new_promise.
  destruct st as [hp lg q]. rewrite bind_alloc, !bind_alloc_app. cbn [length app log].
  set (st3 := State (hp ++ [OPromise Pending; OResolve (length hp); OReject (length hp)]) lg q).
  assert (Hr : heap st3 !! (length hp + 1) = Some (OResolve (length hp)))
    by (cbn [st3 heap]; by rewrite lookup_app_plus).
  assert (Hj : heap st3 !! (length hp + 2) = Some (OReject (length hp)))
    by (cbn [st3 heap]; by rewrite lookup_app_plus).
  pose proof (executor_log api (first_arg args) (tl args) _ (length hp + 2) _ st3 Hr) as Hlog.
  pose proof (framed_executor (heap st3) api (first_arg args) (tl args)
                (VRef (length hp + 1)) (VRef (length hp + 2)) st3 (evolves_refl _))
    as [Hev _].
  unfold bind, try_catch.
  destruct (executor ext api (first_arg args) (tl args) _ _ st3) as [[v|e] st4];
    cbn [fst snd log] in *; [done|].
  rewrite (call_reject ext _ (length hp)); [done|].
  by eapply evolves_keeps.
Qed.

Lemma setOption_log this name options st :
  at_most_one_call (log st) (log (setOption ext this name options st).2).
Proof.
  destruct (truthy (wx this)) eqn:Hwx.
  - rewrite setOption_present by done. apply invoker_log.
  - destruct st as [hp lg q]. rewrite setOption_absent by done. by left.
Qed.

Lemma async_log body st :
  log (async body st).2
  = log (body (State (heap st ++ [OPromise Pending]) (log st) (queue st))).2.
Proof. destruct st as [hp lg q]. by rewrite async_run. Qed.

Lemma verb_log this method url data header st :
  at_most_one_call (log st)
    (log (async (let* d := default_data data in
                 let* options := verb_options method (default_url url) d header in
                 setOption ext this "request" options) st).2).
Proof.
  rewrite async_log. destruct st as [hp lg q]. cbn [heap log queue].
  destruct (default_data_extends data (hp ++ [OPromise Pending]) lg q) as (d & news & Hd).
  rewrite (bind_normal _ _ _ _ _ Hd).
  rewrite (bind_normal _ _ _ _ _ (verb_options_run method (default_url url) d header _ lg q)).
  apply (setOption_log this "request" _ (State _ lg q)).
Qed.

End OneCall.

(** No operation of the adapter calls a host function more than once, or
    retries: whatever the capability object, the arguments and the host's
    behaviour, an invoker, [setOption], a named method or a verb shortcut
    leaves the record of host calls as it was or longer by exactly one
    call. *)
Theorem one_host_call_at_most ext this st :
  (∀ api args, at_most_one_call (log st) (log (promisify_invoker ext api args st).2)) ∧
  (∀ name options, at_most_one_call (log st) (log (setOption ext this name options st).2)) ∧
  (∀ name options,
     at_most_one_call (log st) (log (passthrough ext this name options st).2)) ∧
  (∀ url data header,
     at_most_one_call (log st) (log (get ext this url data header st).2) ∧
     at_most_one_call (log st) (log (post ext this url data header st).2) ∧
     at_most_one_call (log st) (log (put ext this url data header st).2) ∧
     at_most_one_call (log st) (log (delete_ ext this url data header st).2)).
Proof.
  split; [intros; apply invoker_log|].
  split; [intros; apply setOption_log|].
  split.
  - intros name options. unfold passthrough. rewrite async_log.
    apply (setOption_log ext this name options (State _ (log st) _)).
  - intros url data header. repeat split.
    + apply (verb_log ext this "GET").
    + apply (verb_log ext this "POST").
    + apply (verb_log ext this "PUT").
    + apply (verb_log ext this "DELETE").
Qed.

(** ** Invocations do not interfere *)

Lemma string_props_values s : ∀ i k x,
  string_props i s !! k = Some x → ∃ c, x = VStr c.
Proof.
  induction s as [|c s IH]; intros i k x; simpl.
  - by rewrite lookup_empty.
  - rewrite lookup_insert. case_decide; [intros [= <-]; by eexists | apply IH].
Qed.

(** In a store that evolved from a closed store [hp], the fields of a value
    of [hp] are values of [hp]. *)
Lemma own_props_old hp X v k x :
  closed hp → evolves hp X → val_in hp v →
  own_props X v !! k = Some x → val_in hp x.
Proof.
  intros Hcl Hev Hv. destruct v; simpl; try (by rewrite lookup_empty).
  - intros [c ->]%string_props_values. done.
  - simpl in Hv. destruct (lookup_lt_is_Some_2 hp l Hv) as [o Ho].
    pose proof (Hev l o Ho) as HX.
    destruct o as [props| | | | |[]]; try (rewrite HX; by rewrite lookup_empty).
    + rewrite HX. intros Hk. by eapply Hcl.
    + destruct HX as [s ->]. by rewrite lookup_empty.
Qed.

Lemma field_old hp X v k :
  closed hp → evolves hp X → val_in hp v → val_in hp (field X v k).
Proof.
  intros Hcl Hev Hv. unfold field.
  destruct (own_props X v !! k) eqn:E; [|done]. by eapply own_props_old.
Qed.

(** What a host can reach from a merged options object: the object itself,
    its two callbacks, and values that were in the store before. *)
Lemma reach_from_merged hp X m mp r j pt :
  closed hp → evolves hp X →
  X !! m = Some (OPlain mp) →
  (∀ k v, mp !! k = Some v → val_in hp v ∨ v = VRef r ∨ v = VRef j) →
  is_function X (VRef r) = true → is_function X (VRef j) = true →
  let v := resolve_path X [VRef m] pt in
  v = VRef m ∨ val_in hp v ∨ v = VRef r ∨ v = VRef j.
Proof.
  intros Hcl Hev Hm Hmp Hr Hj v. subst v.
  assert (Hstep : ∀ a k, val_in hp a ∨ a = VRef r ∨ a = VRef j →
                         val_in hp (field X a k)).
  { intros a k [Ha|[-> | ->]].
    - by apply field_old.
    - unfold field. by rewrite own_props_function, lookup_empty.
    - unfold field. by rewrite own_props_function, lookup_empty. }
  assert (Hfold : ∀ ks a, val_in hp a ∨ a = VRef r ∨ a = VRef j →
                          let b := foldl (field X) a ks in
                          val_in hp b ∨ b = VRef r ∨ b = VRef j).
  { induction ks as [|k ks IH]; intros a Ha; simpl; [done|].
    apply IH. left. by apply Hstep. }
  unfold resolve_path. destruct pt as [[|i] ks]; simpl.
  - destruct ks as [|k ks]; simpl; [by left|]. right.
    apply Hfold. unfold field. simpl. rewrite Hm.
    destruct (mp !! k) eqn:E; [by eapply Hmp | by left].
  - right. apply Hfold. left. by destruct i.
Qed.

Lemma structured_store_evolves hp options : evolves hp (structured_store hp options).
Proof. apply evolves_app. Qed.

(** The callbacks a host function can invoke when called on the merged
    options object. *)
Lemma structured_callees hp X options pt :
  closed hp → val_in hp options → evolves hp X →
  let Y := structured_store X options in
  let v := resolve_path Y [VRef (length X + 3)] pt in
  v = VRef (length X + 3) ∨ val_in hp v ∨
  v = VRef (length X + 1) ∨ v = VRef (length X + 2).
Proof.
  intros Hcl Hv Hev Y v. subst Y v.
  eapply reach_from_merged; try done.
  - eapply evolves_trans; [exact Hev | apply structured_store_evolves].
  - unfold structured_store. cbv zeta. by rewrite lookup_app_plus.
  - intros k v. rewrite lookup_insert. case_decide; [intros [= <-]; auto|].
    rewrite lookup_insert. case_decide; [intros [= <-]; auto|].
    intros Hk. left. by eapply own_props_old.
  - unfold structured_store. cbv zeta. simpl. by rewrite lookup_app_plus.
  - unfold structured_store. cbv zeta. simpl. by rewrite lookup_app_plus.
Qed.

Lemma own_props_evolves hp X v :
  evolves hp X → val_in hp v → own_props X v = own_props hp v.
Proof.
  intros Hev Hv. destruct v; simpl; try done.
  simpl in Hv. destruct (lookup_lt_is_Some_2 hp l Hv) as [o Ho].
  pose proof (Hev l o Ho) as HX. rewrite Ho.
  destruct o as [| | | | |[]]; try (by rewrite HX).
  by destruct HX as [s ->].
Qed.

Lemma is_function_evolves hp X v :
  evolves hp X → val_in hp v → is_function X v = is_function hp v.
Proof.
  intros Hev Hv. destruct v; simpl; try done.
  simpl in Hv. destruct (lookup_lt_is_Some_2 hp l Hv) as [o Ho].
  pose proof (Hev l o Ho) as HX. rewrite Ho.
  destruct o as [| | | | |[]]; try (by rewrite HX).
  by destruct HX as [s ->].
Qed.

Lemma host_operation_evolves hp X this name h :
  evolves hp X → host_operation hp this name h → host_operation X this name h.
Proof.
  intros Hev (Hwx & hl & Hf & Hh). split; [done|]. exists hl. split.
  - unfold field in *. rewrite (own_props_evolves hp); [done|done|].
    by eapply field_val_in.
  - by eapply evolves_keeps.
Qed.

Lemma val_in_evolves hp X v : evolves hp X → val_in hp v → val_in X v.
Proof.
  intros Hev Hv. destruct v; try done. simpl in *.
  pose proof (evolves_length _ _ Hev). lia.
Qed.

Lemma sole_resolvers_app X news p r j :
  sole_resolvers X p r j →
  (∀ i, news !! i ≠ Some (OResolve p) ∧ news !! i ≠ Some (OReject p)) →
  sole_resolvers (X ++ news) p r j.
Proof.
  intros (Hr & Hj & Hsole) Hnews. repeat split.
  - by apply lookup_app_l_Some.
  - by apply lookup_app_l_Some.
  - intros [H|[_ H]]%lookup_app_Some; [by apply Hsole|].
    by destruct (Hnews (l - length X)).
  - intros [H|[_ H]]%lookup_app_Some; [by apply Hsole|].
    by destruct (Hnews (l - length X)).
Qed.

Lemma first_report_strangers r j cs :
  Forall (λ c, c.1 ≠ VRef r ∧ c.1 ≠ VRef j) cs →
  first_report (VRef r) (VRef j) cs = None.
Proof.
  induction 1 as [|c cs [H1 H2] _ IH]; simpl; [done|].
  by rewrite !decide_False.
Qed.

Section Return.

Variable ext : nat → list value → list object → behaviour.

(** The store an invoker leaves on return, in the structured-options
    branch against a host function. *)
Lemma structured_return hl h args hp lg q :
  heap_ok hp → hp !! hl = Some (OFun h) →
  val_in hp (first_arg args) → is_function hp (first_arg args) = false →
  let p := length hp in
  let hp1 := structured_store hp (first_arg args) in
  let args' := VRef (p + 3) :: tl args in
  let b := ext h args' hp1 in
  let st' := (promisify_invoker ext (VRef hl) args (State hp lg q)).2 in
  sole_resolvers (heap st') p (p + 1) (p + 2) ∧
  promise_state (heap st') p
  = Some (default Pending
            (verdict (VRef (p + 1)) (VRef (p + 2)) hp1 args'
               (Behaviour (during b) (outcome b) []))) ∧
  length (heap st') = p + 5 ∧
  evolves hp1 (heap st') ∧
  queue st' = q ++ (resolve_call hp1 args' <$> later b) ∧
  (∀ l o, (∀ s, o ≠ OPromise s) → heap st' !! l = Some o ↔ hp1 !! l = Some o).
Proof.
  intros Hok Hh Hv Hf p hp1 args' b st'. subst st'.
  rewrite (invoker_structured_host ext hl h) by done. fold p hp1 args' b.
  cbn [snd heap queue].
  pose proof (sole_resolvers_structured hp (first_arg args) Hok) as Hsole.
  fold p hp1 in Hsole.
  set (hp2 := foldl deliver hp1 (resolve_call hp1 args' <$> during b)).
  assert (Hsole2 : sole_resolvers hp2 p (p + 1) (p + 2))
    by (by apply sole_resolvers_deliver_all).
  assert (Hst2 : promise_state hp2 p
                 = Some (default Pending (first_report (VRef (p + 1)) (VRef (p + 2))
                                            (resolve_call hp1 args' <$> during b)))).
  { unfold hp2. rewrite (promise_state_deliver_all _ _ _ (p + 1) (p + 2)) by done.
    unfold hp1, p. by rewrite promise_state_structured. }
  assert (Hlen : length hp2 = p + 5).
  { unfold hp2. rewrite deliver_all_length. unfold hp1, structured_store. cbv zeta.
    by rewrite length_app. }
  pose proof (first_report_settled (VRef (p + 1)) (VRef (p + 2))
                (resolve_call hp1 args' <$> during b)) as Hns.
  unfold verdict. cbn [during outcome later fmap list_fmap first_report].
  destruct (outcome b) as [v|e].
  - split; [done|]. split.
    { rewrite Hst2. by destruct (first_report _ _ (_ <$> during b)) as [[]|]. }
    split; [done|]. split; [apply evolves_deliver_all|]. split; [done|].
    intros l o Ho. by apply deliver_all_lookup_function.
  - split; [by apply sole_resolvers_settle|]. split.
    { rewrite promise_state_settle, Hst2.
      destruct (first_report _ _ (_ <$> during b)) as [[]|]; try done.
      simpl. by rewrite decide_True. }
    split; [by rewrite settle_length|].
    split; [eapply evolves_trans; [apply evolves_deliver_all | apply evolves_settle]|].
    split; [done|].
    intros l o Ho. rewrite settle_lookup_function by done.
    by apply deliver_all_lookup_function.
Qed.

End Return.

Section Independence.

Variable ext : nat → list value → list object → behaviour.

(** A structured invocation against a host function takes a well-formed
    store over a closed one to a well-formed store. *)
Lemma structured_return_wf hl h args hp lg q :
  wf (State hp lg q) → closed hp → hp !! hl = Some (OFun h) →
  val_in hp (first_arg args) → is_function hp (first_arg args) = false →
  tl args = [] →
  wf (promisify_invoker ext (VRef hl) args (State hp lg q)).2.
Proof.
  intros [Hok Hq] Hcl Hh Hv Hf Htl. unfold queue_ok in Hq. cbn [heap queue] in *.
  destruct (structured_return ext hl h args hp lg q Hok Hh Hv Hf)
    as (_ & _ & Hlen & Hev & Hqueue & Hkinds).
  rewrite Htl in *.
  set (st' := (promisify_invoker ext (VRef hl) args (State hp lg q)).2) in *.
  split.
  - intros l p H.
    assert (H1 : structured_store hp (first_arg args) !! l = Some (OResolve p) ∨
                 structured_store hp (first_arg args) !! l = Some (OReject p))
      by (destruct H as [H|H]; apply Hkinds in H; auto).
    rewrite Hlen. unfold structured_store in H1. cbv zeta in H1.
    destruct H1 as [H1|H1]; apply lookup_app_Some in H1 as [H1|[_ H1]];
      try (assert (p < length hp) by (eapply Hok; eauto); lia);
      destruct (l - length hp) as [|[|[|[|[|]]]]]; simpl in H1; try done;
      injection H1 as <-; lia.
  - unfold queue_ok. rewrite Hqueue. apply Forall_app. split.
    + eapply Forall_impl; [exact Hq|]. intros c. unfold val_in.
      destruct c.1; try done. lia.
    + apply Forall_fmap, Forall_forall. intros c _.
      change (val_in (heap st')
                (resolve_path (structured_store hp (first_arg args))
                   [VRef (length hp + 3)] (callee c))).
      pose proof (structured_callees hp hp (first_arg args) (callee c) Hcl Hv
                    (evolves_refl hp)) as Hc. cbv zeta in Hc.
      remember (resolve_path (structured_store hp (first_arg args))
                  [VRef (length hp + 3)] (callee c)) as v eqn:Ev. clear Ev.
      unfold val_in in *.
      destruct Hc as [-> | [H | [-> | ->]]]; try lia.
      destruct v; try done. lia.
Qed.

(** The callbacks a later host call can reach do not include the resolving
    functions of an earlier promise. *)
Lemma later_call_strangers hp X options p calls :
  closed hp → val_in hp options → evolves hp X →
  length hp ≤ p → p + 2 < length X →
  Forall (λ c, c.1 ≠ VRef (p + 1) ∧ c.1 ≠ VRef (p + 2))
    (resolve_call (structured_store X options) [VRef (length X + 3)] <$> calls).
Proof.
  intros Hcl Hv Hev Hp Hlen. apply Forall_fmap, Forall_forall. intros c _.
  change (resolve_path (structured_store X options) [VRef (length X + 3)] (callee c)
            ≠ VRef (p + 1) ∧
          resolve_path (structured_store X options) [VRef (length X + 3)] (callee c)
            ≠ VRef (p + 2)).
  pose proof (structured_callees hp X options (callee c) Hcl Hv Hev) as Hc.
  cbv zeta in Hc.
  remember (resolve_path (structured_store X options) [VRef (length X + 3)] (callee c))
    as v eqn:Ev. clear Ev.
  destruct Hc as [-> | [H | [-> | ->]]];
    try (split; intros [=]; lia).
  split; intros E; rewrite E in H; simpl in H; lia.
Qed.

End Independence.

(** Two invocations in a row do not interfere.  Each returns its own
    promise, and once the queued callbacks have run each promise is in the
    state its own host call dictates: nothing the second call or its host
    does can settle the first promise, and the callbacks still pending from
    the first call cannot settle the second. *)
Theorem invocations_do_not_interfere ext this name1 name2 o1 o2 h1 h2 st :
  wf st → closed (heap st) →
  host_operation (heap st) this name1 h1 → host_operation (heap st) this name2 h2 →
  val_in (heap st) o1 → is_function (heap st) o1 = false →
  val_in (heap st) o2 → is_function (heap st) o2 = false →
  let p1 := length (heap st) in
  let first := setOption ext this name1 o1 st in
  let p2 := length (heap first.2) in
  let second := setOption ext this name2 o2 first.2 in
  let got1 := structured_store (heap st) o1 in
  let got2 := structured_store (heap first.2) o2 in
  first.1 = Normal (VRef p1) ∧ second.1 = Normal (VRef p2) ∧ p1 ≠ p2 ∧
  promise_state (heap (drain second.2)) p1
  = Some (default Pending
            (verdict (VRef (p1 + 1)) (VRef (p1 + 2)) got1 [VRef (p1 + 3)]
               (ext h1 [VRef (p1 + 3)] got1))) ∧
  promise_state (heap (drain second.2)) p2
  = Some (default Pending
            (verdict (VRef (p2 + 1)) (VRef (p2 + 2)) got2 [VRef (p2 + 3)]
               (ext h2 [VRef (p2 + 3)] got2))).
Proof.
  intros Hwf Hcl Hop1 Hop2 Hv1 Hf1 Hv2 Hf2 p1 first p2 second got1 got2.
  subst p1 first p2 second got1 got2.
  destruct st as [hp lg q]. cbn [heap] in *.
  pose proof Hop1 as (Hwx & hl1 & Hfield1 & Hh1).
  rewrite (setOption_present ext this name1) by done. cbn [heap]. rewrite Hfield1.
  pose proof Hwf as [Hok Hq]. unfold queue_ok in Hq. cbn [heap queue] in Hok, Hq.
  destruct (structured_return ext hl1 h1 [o1] hp lg q Hok Hh1 Hv1 Hf1)
    as (Hsole1 & Hstate1 & Hlen1 & Hev1 & Hqueue1 & Hkinds1).
  pose proof (structured_return_wf ext hl1 h1 [o1] hp lg q Hwf Hcl Hh1 Hv1 Hf1 eq_refl)
    as Hwf1.
  pose proof (invoker_structured_log ext hl1 h1 [o1] (State hp lg q) Hh1 Hv1 Hf1)
    as [Hres1 _].
  cbn [first_arg hd tl heap] in *.
  set (st1 := (promisify_invoker ext (VRef hl1) [o1] (State hp lg q)).2) in *.
  assert (Hev : evolves hp (heap st1))
    by (eapply evolves_trans; [apply structured_store_evolves | exact Hev1]).
  pose proof (host_operation_evolves hp (heap st1) this name2 h2 Hev Hop2)
    as (_ & hl2 & Hfield2 & Hh2).
  assert (Hv2' : val_in (heap st1) o2) by (by eapply val_in_evolves).
  assert (Hf2' : is_function (heap st1) o2 = false)
    by (by rewrite (is_function_evolves hp)).
  rewrite (setOption_present ext this name2) by done. rewrite Hfield2.
  split; [done|].
  pose proof (invoker_structured_log ext hl2 h2 [o2] st1 Hh2 Hv2' Hf2') as [Hres2 _].
  split; [done|]. split; [lia|]. split.
  2:{ by rewrite (structured_settlement ext hl2 h2 [o2] st1). }
  (* the first promise *)
  destruct st1 as [hp' lg' q'] eqn:Est1. cbn [heap queue] in *.
  rewrite (invoker_structured_host ext hl2 h2) by done. cbn [first_arg hd tl].
  cbn [snd drain heap queue].
  set (got2 := structured_store hp' o2).
  set (a2 := [VRef (length hp' + 3)]).
  set (b2 := ext h2 a2 got2).
  set (p1 := length hp) in *.
  assert (Hsole_got2 : sole_resolvers got2 p1 (p1 + 1) (p1 + 2)).
  { apply sole_resolvers_app; [done|].
    intros [|[|[|[|[|[|]]]]]]; simpl; split; try done; intros [=]; lia. }
  assert (Hstate_got2 : promise_state got2 p1 = promise_state hp' p1).
  { unfold promise_state, got2, structured_store. cbv zeta.
    by rewrite lookup_app_old by lia. }
  assert (Hduring2 : first_report (VRef (p1 + 1)) (VRef (p1 + 2))
                       (resolve_call got2 a2 <$> during b2) = None).
  { apply first_report_strangers.
    apply (later_call_strangers hp hp' o2 p1); try done; unfold p1; lia. }
  assert (Hlater2 : first_report (VRef (p1 + 1)) (VRef (p1 + 2))
                      (resolve_call got2 a2 <$> later b2) = None).
  { apply first_report_strangers.
    apply (later_call_strangers hp hp' o2 p1); try done; unfold p1; lia. }
  set (H2 := foldl deliver got2 (resolve_call got2 a2 <$> during b2)).
  assert (Hsole_H2 : sole_resolvers H2 p1 (p1 + 1) (p1 + 2))
    by (by apply sole_resolvers_deliver_all).
  assert (Hstate_H2 : promise_state H2 p1 = promise_state hp' p1).
  { unfold H2. rewrite (promise_state_deliver_all _ _ _ (p1 + 1) (p1 + 2)) by done.
    rewrite Hduring2, Hstate_got2. by destruct (promise_state hp' p1) as [[]|]. }
  set (H3 := match outcome b2 with
             | Normal _ => H2
             | Throw e => settle (length hp') (Rejected e) H2
             end).
  assert (Hsole_H3 : sole_resolvers H3 p1 (p1 + 1) (p1 + 2)).
  { unfold H3. destruct (outcome b2); [done | by apply sole_resolvers_settle]. }
  assert (Hstate_H3 : promise_state H3 p1 = promise_state hp' p1).
  { unfold H3. destruct (outcome b2); [done|].
    rewrite promise_state_settle, Hstate_H2.
    destruct (promise_state hp' p1) as [[]|]; try done.
    by rewrite decide_False by lia. }
  rewrite (promise_state_deliver_all _ _ _ (p1 + 1) (p1 + 2)) by done.
  rewrite Hstate_H3, Hstate1, Hqueue1.
  rewrite !first_report_app, Hlater2.
  rewrite (first_report_old hp) by (done || unfold p1; lia).
  unfold verdict. cbn [during outcome later fmap list_fmap first_report].
  set (b1 := ext h1 [VRef (p1 + 3)] (structured_store hp o1)).
  pose proof (first_report_settled (VRef (p1 + 1)) (VRef (p1 + 2))
                (resolve_call (structured_store hp o1) [VRef (p1 + 3)] <$> during b1))
    as Hns.
  destruct (first_report _ _ (_ <$> during b1)) as [[]|]; try done.
  destruct (outcome b1); [|done]. simpl.
  by destruct (first_report _ _ (_ <$> later b1)).
Qed.

Lemma demo_store_closed : closed (heap demo_store).
Proof.
  intros l props k v Hl Hk.
  do 9 (destruct l as [|l]; [simpl in Hl; try discriminate; injection Hl as <-;
        repeat (first [rewrite lookup_insert in Hk | rewrite lookup_singleton in Hk];
                case_decide; [injection Hk as <-; simpl; lia|]);
        first [by rewrite lookup_empty in Hk | done]|]).
  simpl in Hl. discriminate.
Defined.

Lemma invocations_do_not_interfere_witness :
  let first := setOption demo_ext demo_adapter "request" (VRef 4) demo_store in
  let second := setOption demo_ext demo_adapter "login" (VRef 7) first.2 in
  first.1 = Normal (VRef 9) ∧
  second.1 = Normal (VRef (length (heap first.2))) ∧
  9 ≠ length (heap first.2).
Proof.
  assert (Hv7 : val_in (heap demo_store) (VRef 7)) by (simpl; lia).
  pose proof (invocations_do_not_interfere demo_ext demo_adapter "request" "login"
                (VRef 4) (VRef 7) 1 0 demo_store demo_store_wf demo_store_closed
                demo_request_operation demo_login_operation
                demo_options_in eq_refl Hv7 eq_refl) as (H1 & H2 & H3 & _).
  exact (conj H1 (conj H2 H3)).
Defined.

(** The two promises of the example: [request] is called first and fails
    later, [login] is called second and succeeds at once. *)
Example two_invocations_scenario :
  let first := setOption demo_ext demo_adapter "request" (VRef 4) demo_store in
  let second := setOption demo_ext demo_adapter "login" (VRef 7) first.2 in
  promise_state (heap second.2) 9 = Some Pending ∧
  promise_state (heap second.2) 14 = Some (Resolved (VRef 5)) ∧
  promise_state (heap (drain second.2)) 9 = Some (Rejected (VRef 6)) ∧
  promise_state (heap (drain second.2)) 14 = Some (Resolved (VRef 5)).
Proof. vm_compute. repeat split. Qed.

(** ** Calls without options *)

(** With falsy options ([undefined], [null], [false], [0], [NaN], ['']) the
    host operation receives a new object holding the two callbacks and
    nothing else.  [getMenuButtonBoundingClientRect()], which passes no
    options, calls its host operation this way, and its promise is
    resolved with a promise that settles as the host reports. *)
Theorem call_without_options ext this st :
  (∀ name options h,
     host_operation (heap st) this name h → truthy options = false →
     let p := length (heap st) in
     let run := setOption ext this name options st in
     run.1 = Normal (VRef p) ∧
     log run.2 = log st ++ [(h, [VRef (p + 3)])] ∧
     heap run.2 !! (p + 3)
     = Some (OPlain (<["fail" := VRef (p + 2)]> {["success" := VRef (p + 1)]}))) ∧
  (∀ h s,
     wf st → host_operation (heap st) this "getMenuButtonBoundingClientRect" h →
     reports (ext h) s →
     let p := length (heap st) in
     let run := getMenuButtonBoundingClientRect ext this st in
     run.1 = Normal (VRef p) ∧
     log run.2 = log st ++ [(h, [VRef (p + 4)])] ∧
     heap run.2 !! (p + 4)
     = Some (OPlain (<["fail" := VRef (p + 3)]> {["success" := VRef (p + 2)]})) ∧
     promise_state (heap (drain run.2)) p = Some (Resolved (VRef (p + 1))) ∧
     promise_state (heap (drain run.2)) (p + 1) = Some s).
Proof.
  assert (Hdirect : ∀ st0 name options h,
            host_operation (heap st0) this name h → truthy options = false →
            let p := length (heap st0) in
            let run := setOption ext this name options st0 in
            run.1 = Normal (VRef p) ∧
            log run.2 = log st0 ++ [(h, [VRef (p + 3)])] ∧
            heap run.2 !! (p + 3)
            = Some (OPlain (<["fail" := VRef (p + 2)]> {["success" := VRef (p + 1)]}))).
  { intros st0 name options h (Hwx & hl & Hfield & Hh) Hfalsy p run. subst p run.
    assert (Hv : val_in (heap st0) (first_arg [options])) by (by apply val_in_falsy).
    assert (Hf : is_function (heap st0) (first_arg [options]) = false)
      by (by apply is_function_falsy).
    rewrite setOption_present, Hfield by done.
    destruct (invoker_structured_log ext hl h [options] st0 Hh Hv Hf) as [Hres Hlog].
    split; [done|]. split; [done|].
    apply (invoker_structured_keeps ext hl h [options] st0); try done.
    unfold structured_store. cbv zeta. rewrite lookup_app_plus. cbn [first_arg hd].
    rewrite own_props_falsy by done. simpl. by rewrite insert_empty. }
  split; [apply Hdirect|].
  intros h s Hwf Hop Hrep p run. subst p run.
  destruct (passthrough_settles ext this "getMenuButtonBoundingClientRect" VUndef h st s
              Hwf Hop I eq_refl Hrep) as (Hres & HP & Hp).
  split; [exact Hres|].
  unfold getMenuButtonBoundingClientRect, passthrough in *.
  destruct st as [hp lg q]. cbn [heap log] in *.
  rewrite async_run in *. cbn [fst snd with_heap heap log drain queue] in *.
  destruct (Hdirect (State (hp ++ [OPromise Pending]) lg q)
              "getMenuButtonBoundingClientRect" VUndef h)
    as (_ & Hlog & Hm); [by apply host_operation_app | done |].
  cbn [heap log] in Hlog, Hm. rewrite length_app in Hlog, Hm. cbn [length] in Hlog, Hm.
  replace (length hp + 1 + 3) with (length hp + 4) in Hlog, Hm by lia.
  replace (length hp + 1 + 2) with (length hp + 3) in Hm by lia.
  replace (length hp + 1 + 1) with (length hp + 2) in Hm by lia.
  split; [exact Hlog|]. split; [|by split].
  by apply settle_lookup_function.
Qed.

Lemma menu_store_wf : wf menu_store.
Proof.
  split.
  - intros l p [H|H];
      do 2 (destruct l as [|l]; [simpl in H; discriminate|]); simpl in H; discriminate.
  - constructor.
Defined.

Lemma call_without_options_witness :
  (log (setOption demo_ext demo_adapter "login" (VNum 0) demo_store).2 = [(0, [VRef 12])] ∧
   heap (setOption demo_ext demo_adapter "login" (VNum 0) demo_store).2 !! 12
   = Some (OPlain (<["fail" := VRef 11]> {["success" := VRef 10]}))) ∧
  promise_state
    (heap (drain (getMenuButtonBoundingClientRect demo_ext (constructor (VRef 1))
                    menu_store).2)) 3
  = Some (Resolved (VRef 5)).
Proof.
  split.
  - pose proof (proj1 (call_without_options demo_ext demo_adapter demo_store)
                  "login" (VNum 0) 0 demo_login_operation eq_refl) as (_ & H1 & H2).
    exact (conj H1 H2).
  - assert (Hop : host_operation (heap menu_store) (constructor (VRef 1))
                    "getMenuButtonBoundingClientRect" 0)
      by (split; [reflexivity|]; exists 0; split; reflexivity).
    pose proof (proj2 (call_without_options demo_ext (constructor (VRef 1)) menu_store)
                  0 (Resolved (VRef 5)) menu_store_wf Hop demo_login_reports)
      as (_ & _ & _ & _ & H).
    exact H.
Defined.

(** ** The named methods on a missing operation *)

Section MissingThrough.

Variable ext : nat → list value → list object → behaviour.

Lemma wrapped_missing this name hp rest lg q options :
  truthy (wx this) = true → val_in hp (wx this) →
  is_function hp (field hp (wx this) name) = false →
  val_in hp (field hp (wx this) name) →
  val_in (hp ++ OPromise Pending :: rest) options →
  let run := setOption ext this name options (State (hp ++ OPromise Pending :: rest) lg q) in
  rejected_for_missing_operation (State hp lg q)
    (Normal (VRef (length hp)),
     with_heap
       (settle (length hp)
          match run.1 with Normal v => Resolved v | Throw e => Rejected e end)
       run.2).
Proof.
  intros Hwx Hvwx Hapi Hvapi Hv run. subst run.
  set (X := hp ++ OPromise Pending :: rest) in *.
  assert (Hfield : field X (wx this) name = field hp (wx this) name)
    by (unfold field, X; by rewrite own_props_app).
  rewrite setOption_present by done. cbn [heap]. rewrite Hfield.
  rewrite invoker_not_callable;
    [|unfold X; by rewrite is_function_app|unfold X; by apply val_in_app|done].
  cbn [fst snd first_arg hd].
  set (X' := hp ++ OPromise (Resolved (VRef (length X))) :: rest).
  assert (Hlen : length X' = length X) by (unfold X, X'; by rewrite !length_app).
  assert (Hsettle : ∀ news, settle (length hp) (Resolved (VRef (length X))) (X ++ news)
                            = X' ++ news).
  { intros news. unfold X, X'. rewrite <- !app_assoc. cbn [app]. apply settle_new. }
  assert (HlenX : length hp < length X) by (unfold X; rewrite length_app; simpl; lia).
  unfold rejected_for_missing_operation. cbn [fst snd heap log].
  split; [done|].
  destruct (is_function X options); cbn [with_heap heap log]; rewrite Hsettle.
  - split; [done|]. exists (length X), (length X + 3).
    split; [apply lookup_ge_None_2; lia|]. split; [apply lookup_ge_None_2; lia|].
    split; [|split].
    + unfold promise_state, X'. rewrite <- app_assoc. by rewrite lookup_app_length.
    + unfold promise_state. rewrite <- Hlen. by rewrite lookup_app_length.
    + rewrite <- Hlen. by rewrite lookup_app_plus.
  - split; [done|]. exists (length X), (length X + 5).
    split; [apply lookup_ge_None_2; lia|]. split; [apply lookup_ge_None_2; lia|].
    split; [|split].
    + unfold promise_state, X'. rewrite <- app_assoc. by rewrite lookup_app_length.
    + unfold promise_state. rewrite <- Hlen. by rewrite lookup_app_length.
    + rewrite <- Hlen. by rewrite lookup_app_plus.
Qed.

End MissingThrough.

(** When the capability object does not offer the operation as a function,
    the named methods do not throw either: the [TypeError] of the attempted
    call rejects the promise of the inner call, with which the method's own
    promise is resolved, and no host function is called.  For the verb
    shortcuts the operation concerned is [request]. *)
Theorem methods_reject_missing_operation ext this name st :
  truthy (wx this) = true → val_in (heap st) (wx this) →
  is_function (heap st) (field (heap st) (wx this) name) = false →
  val_in (heap st) (field (heap st) (wx this) name) →
  (∀ options, val_in (heap st) options →
     rejected_for_missing_operation st (passthrough ext this name options st)) ∧
  (name = "request" →
   ∀ url data header,
     rejected_for_missing_operation st (get ext this url data header st) ∧
     rejected_for_missing_operation st (post ext this url data header st) ∧
     rejected_for_missing_operation st (put ext this url data header st) ∧
     rejected_for_missing_operation st (delete_ ext this url data header st)).
Proof.
  intros Hwx Hvwx Hapi Hvapi. destruct st as [hp lg q]. cbn [heap] in *. split.
  - intros options Hv. unfold passthrough. rewrite async_run.
    apply (wrapped_missing ext this name hp [] lg q options); try done.
    by apply val_in_app.
  - intros -> url data header.
    assert (Hverb : ∀ method,
              rejected_for_missing_operation (State hp lg q)
                (async (let* d := default_data data in
                        let* options := verb_options method (default_url url) d header in
                        setOption ext this "request" options) (State hp lg q))).
    { intros method. rewrite async_run.
      destruct (default_data_extends data (hp ++ [OPromise Pending]) lg q)
        as (d & news & Hd).
      rewrite (bind_normal _ _ _ _ _ Hd).
      rewrite (bind_normal _ _ _ _ _
                 (verb_options_run method (default_url url) d header _ lg q)).
      set (fields := verb_fields method (default_url url) d header).
      pose proof (wrapped_missing ext this "request" hp
                    (news ++ [OPlain fields; OPlain fields]) lg q
                    (VRef (length ((hp ++ [OPromise Pending]) ++ news)))
                    Hwx Hvwx Hapi Hvapi) as H.
      assert (Heq : ((hp ++ [OPromise Pending]) ++ news) ++ [OPlain fields; OPlain fields]
                    = hp ++ OPromise Pending :: news ++ [OPlain fields; OPlain fields])
        by (by rewrite <- !app_assoc).
      rewrite Heq. apply H.
      rewrite <- Heq. simpl. rewrite !length_app. simpl. lia. }
    repeat split; apply Hverb.
Qed.

Lemma methods_reject_missing_operation_witness :
  rejected_for_missing_operation demo_store
    (passthrough demo_ext demo_adapter "doesNotExist" (VRef 7) demo_store) ∧
  rejected_for_missing_operation menu_store
    (get demo_ext (constructor (VRef 1)) (VStr "/x") VUndef VUndef menu_store).
Proof.
  split.
  - assert (Hv3 : val_in (heap demo_store) (VRef 3)) by (simpl; lia).
    assert (Hv7 : val_in (heap demo_store) (VRef 7)) by (simpl; lia).
    exact (proj1 (methods_reject_missing_operation demo_ext demo_adapter "doesNotExist"
                    demo_store eq_refl Hv3 eq_refl I) (VRef 7) Hv7).
  - assert (Hv1 : val_in (heap menu_store) (VRef 1)) by (simpl; lia).
    exact (proj1 (proj2 (methods_reject_missing_operation demo_ext (constructor (VRef 1))
                           "request" menu_store eq_refl Hv1 eq_refl I)
                    eq_refl (VStr "/x") VUndef VUndef)).
Defined.

(** ** When [setOption] throws *)

Section Throws.

Variable ext : nat → list value → list object → behaviour.

(** An invoker always returns its promise: whatever [api] is and whatever
    it does, nothing is thrown to the caller. *)
Lemma invoker_result api args st :
  (promisify_invoker ext api args st).1 = Normal (VRef (length (heap st))).
Proof.
  rewrite promisify_invoker_executor. unfold new_promise.
  destruct st as [hp lg q]. rewrite bind_alloc, !bind_alloc_app. cbn [length app heap].
  set (st3 := State (hp ++ [OPromise Pending; OResolve (length hp); OReject (length hp)]) lg q).
  assert (Hj : heap st3 !! (length hp + 2) = Some (OReject (length hp)))
    by (cbn [st3 heap]; by rewrite lookup_app_plus).
  pose proof (framed_executor ext (heap st3) api (first_arg args) (tl args)
                (VRef (length hp + 1)) (VRef (length hp + 2)) st3 (evolves_refl _))
    as [Hev _].
  unfold bind, try_catch.
  destruct (executor ext api (first_arg args) (tl args) _ _ st3) as [[v|e] st4];
    cbn [fst snd] in *; [done|].
  rewrite (call_reject ext _ (length hp)); [done|].
  by eapply evolves_keeps.
Qed.

End Throws.

(** [setOption] throws exactly when the held capability object is falsy,
    and then what it throws is the new error [wx对象不存在].  In every other
    case, whatever the operation name, the options and the behaviour of the
    host, it returns a new promise: a missing operation, a host that throws
    and every other failure reach the caller through that promise. *)
Theorem setOption_throws_only_without_wx ext this name options st :
  let run := setOption ext this name options st in
  ((∃ e, run.1 = Throw e) ↔ truthy (wx this) = false) ∧
  match run.1 with
  | Normal v => v = VRef (length (heap st)) ∧ heap st !! length (heap st) = None ∧
                ∃ s, promise_state (heap run.2) (length (heap st)) = Some s
  | Throw e => e = VRef (length (heap st)) ∧
               heap run.2 !! length (heap st) = Some (OError "Error" "wx对象不存在")
  end.
Proof.
  intros run. subst run. destruct (truthy (wx this)) eqn:Hwx.
  - rewrite setOption_present by done.
    pose proof (invoker_result ext (field (heap st) (wx this) name) [options] st) as Hres.
    pose proof (proj1 (operations_evolve ext this st)
                  (field (heap st) (wx this) name) [options]) as Hev.
    rewrite Hres. split.
    + split; [intros [e [=]] | done].
    + split; [done|]. split; [by apply lookup_ge_None_2|].
      rewrite promisify_invoker_executor in *. unfold new_promise in *.
      destruct st as [hp lg q]. cbn [heap] in *.
      rewrite bind_alloc, !bind_alloc_app in *. cbn [length app] in *.
      set (st3 := State (hp ++ [OPromise Pending; OResolve (length hp);
                                OReject (length hp)]) lg q) in *.
      assert (H3 : promise_state (heap st3) (length hp) = Some Pending)
        by (unfold promise_state; cbn [st3 heap]; by rewrite lookup_app_length).
      assert (Hgen : ∀ c : M value,
                evolves (heap st3) (heap (c st3).2) →
                ∃ s, promise_state (heap (c st3).2) (length hp) = Some s).
      { intros c Hc. unfold promise_state in *.
        destruct (heap st3 !! length hp) as [[| | | | |[]]|] eqn:E; try done.
        destruct (Hc _ _ E) as [s Hs]. rewrite Hs. by eexists. }
      apply Hgen.
      apply (framed_bind (heap st3) _ _ (λ _, True) (λ _, True));
        [|intros; by apply framed_ret|apply evolves_refl].
      apply framed_try_catch; [apply framed_executor | intros; apply framed_call].
  - destruct st as [hp lg q]. rewrite setOption_absent by done. cbn [fst snd heap].
    split; [split; [done | by eexists]|].
    split; [done|]. by rewrite lookup_app_length.
Qed.
